(** * Block archiver: request lock, bundle-name parsing and fetch coordination

    A shallow embedding of [core/blockarchiver]: the [RequestLock] of
    [types.go], the bundle-name parsing of [Client.GetBundleBlocksRange]
    and the lookup paths of [BlockArchiverService].

    Conventions.
    - A Go [uint64] is an [N] below [2^64]; the wrap-around of [i++] is
      written out ([uint64_succ]).
    - A Go [map[uint64]V] is a [gmap N V].
    - A Go loop whose trip count depends on its arguments is a [Fixpoint]
      on a fuel argument; [None] means the fuel ran out.  Results that say
      the code returns are stated with enough fuel, results that say it
      never returns are stated for every fuel.
    - The mutex of [RequestLock] is held for the whole body of each method
      and released on return; the embedding is of one goroutine, so the
      critical sections are the method bodies themselves. *)

From stdpp Require Import gmap strings.
From Stdlib Require Import NArith Ascii String.

Local Open Scope N_scope.

(** ** Machine integers *)

Definition MaxUint64 : N := 2 ^ 64 - 1.

(** [i++] on a [uint64]. *)
Definition uint64_succ (i : N) : N := (i + 1) mod 2 ^ 64.

(** ** types.go: Range and RequestLock *)

Module Lock.

Record Range := mkRange { from : N; to : N }.

Record RequestLock := mkRequestLock {
  rangeMap : gmap N Range;
  lookupMap : gmap N bool
}.

Definition NewRequestLock : RequestLock :=
  {| rangeMap := ∅; lookupMap := ∅ |}.

(** [_, exists := rc.lookupMap[num]; return exists] *)
Definition IsWithinAnyRange (rc : RequestLock) (num : N) : bool :=
  match lookupMap rc !! num with
  | Some _ => true
  | None => false
  end.

(** [for i := from; i <= to; i++ { body }] over [uint64], entered with
    the loop variable at [i]: test, body, increment. *)
Fixpoint forRange {T : Type} (fuel : nat) (i to : N)
    (body : N → T → T) (s : T) : option T :=
  match fuel with
  | O => None
  | S fuel' =>
      if i <=? to
      then forRange fuel' (uint64_succ i) to body (body i s)
      else Some s
  end.

Definition AddRange (fuel : nat) (from to : N) (rc : RequestLock)
  : option RequestLock :=
  (* rc.rangeMap[from] = Range{from, to} *)
  let rm := <[from := mkRange from to]> (rangeMap rc) in
  (* for i := from; i <= to; i++ { rc.lookupMap[i] = true } *)
  match forRange fuel from to (λ i lm, <[i := true]> lm) (lookupMap rc) with
  | Some lm => Some {| rangeMap := rm; lookupMap := lm |}
  | None => None
  end.

Definition RemoveRange (fuel : nat) (from to : N) (rc : RequestLock)
  : option RequestLock :=
  (* delete(rc.rangeMap, from) *)
  let rm := delete from (rangeMap rc) in
  (* for i := from; i <= to; i++ { delete(rc.lookupMap, i) } *)
  match forRange fuel from to (λ i lm, delete i lm) (lookupMap rc) with
  | Some lm => Some {| rangeMap := rm; lookupMap := lm |}
  | None => None
  end.

(** Fuel that lets the loop over [[from, to]] run to its end when it has
    one: one test per identifier and the final failing test. *)
Definition loop_fuel (from to : N) : nat := S (N.to_nat (to + 1 - from)).

(** *** The invariant of the specification *)

Definition in_range (r : Range) (x : N) : Prop := from r <= x <= to r.

Definition covered (rm : gmap N Range) (x : N) : Prop :=
  ∃ k r, rm !! k = Some r ∧ in_range r x.

Definition lock_invariant (rc : RequestLock) : Prop :=
  ∀ x, is_Some (lookupMap rc !! x) ↔ covered (rangeMap rc) x.

(** A call of [AddRange] or [RemoveRange]. *)
Inductive call :=
  | CallAdd (from to : N)
  | CallRemove (from to : N).

Definition run_call (fuel : nat) (c : call) (rc : RequestLock)
  : option RequestLock :=
  match c with
  | CallAdd f t => AddRange fuel f t rc
  | CallRemove f t => RemoveRange fuel f t rc
  end.

(** The lock after a sequence of calls, each given the same fuel. *)
Fixpoint run_calls (fuel : nat) (cs : list call) (rc : RequestLock)
  : option RequestLock :=
  match cs with
  | [] => Some rc
  | c :: cs' =>
      match run_call fuel c rc with
      | Some rc' => run_calls fuel cs' rc'
      | None => None
      end
  end.

(** *** Ranges that share identifiers, and callers that avoid it *)

(** [r] and [[from, to]] have an identifier in common. *)
Definition overlaps (r : Range) (from to : N) : Prop :=
  Lock.from r <= Lock.to r ∧ from <= to ∧ Lock.from r <= to ∧ from <= Lock.to r.

(** No stored range overlaps [[from, to]]. *)
Definition no_overlap (rc : RequestLock) (from to : N) : Prop :=
  ∀ k r, rangeMap rc !! k = Some r → ¬ overlaps r from to.

(** Every stored range is [[from, to]] itself or shares nothing with it:
    what the callers see when bundles do not overlap. *)
Definition same_or_apart (rc : RequestLock) (from to : N) : Prop :=
  ∀ k r, rangeMap rc !! k = Some r →
         r = mkRange from to ∨ ¬ overlaps r from to.

Definition call_ok (c : call) (rc : RequestLock) : Prop :=
  match c with
  | CallAdd f t | CallRemove f t => f <= t ∧ same_or_apart rc f t
  end.

(** Every call of the sequence is [call_ok] on the lock it meets. *)
Fixpoint disciplined (fuel : nat) (cs : list call) (rc : RequestLock) : Prop :=
  match cs with
  | [] => True
  | c :: cs' =>
      call_ok c rc ∧
      match run_call fuel c rc with
      | Some rc' => disciplined fuel cs' rc'
      | None => True
      end
  end.

(** What the stored ranges look like under that discipline: each under
    its own [from], none empty, no two sharing an identifier. *)
Definition ranges_wf (rm : gmap N Range) : Prop :=
  (∀ k r, rm !! k = Some r → Lock.from r = k ∧ Lock.from r <= Lock.to r) ∧
  (∀ k1 r1 k2 r2 x, rm !! k1 = Some r1 → rm !! k2 = Some r2 →
                    in_range r1 x → in_range r2 x → k1 = k2).

(** Nothing of [[from, to]] is held: no range is stored under [from]
    and no identifier of the interval is in [lookupMap]. *)
Definition unheld (rc : RequestLock) (from to : N) : Prop :=
  rangeMap rc !! from = None ∧
  ∀ x, from <= x <= to → lookupMap rc !! x = None.

End Lock.

(** ** Errors and outcomes of Go calls *)

(** Why [strconv.ParseUint] failed ([strconv.ErrSyntax], [strconv.ErrRange]). *)
Inductive NumErrKind := ErrSyntax | ErrRange.

Inductive error :=
  | errors_New (msg : string)
  | strconv_NumError (func num : string) (kind : NumErrKind)
  | upstream_error (msg : string).

(** A Go call either returns its results or panics. *)
Inductive outcome (A : Type) :=
  | Return (a : A)
  | Panic (msg : string).
Arguments Return {A} a.
Arguments Panic {A} msg.

(** ** The parts of the Go standard library the client uses

    [strings.Split] with a one-byte separator, the slice expression
    [s[1:]] and [strconv.ParseUint(s, 10, 64)], after their documentation
    and the loop of [strconv/atoi.go]. *)

Module Go.

(** [strings.Split(s, sep)] for a separator of one byte: the substrings
    between the separators; a string without the separator is returned
    whole, as the only element. *)
Fixpoint Split (s : string) (sep : ascii) : list string :=
  match s with
  | EmptyString => [EmptyString]
  | String c s' =>
      if Ascii.eqb c sep then EmptyString :: Split s' sep
      else match Split s' sep with
           | hd :: tl => String c hd :: tl
           | [] => [String c EmptyString]
           end
  end.

(** [s[1:]]: a run-time panic when [s] is empty. *)
Definition slice_from_1 (s : string) : outcome string :=
  match s with
  | EmptyString => Panic "slice bounds out of range [1:0]"
  | String _ s' => Return s'
  end.

(** [parts[i]]: a run-time panic when [i] is not below [len(parts)]. *)
Definition index (parts : list string) (i : nat) : outcome string :=
  match parts !! i with
  | Some s => Return s
  | None => Panic "index out of range"
  end.

(** [lower(c)] of [strconv]: [c | ('x' - 'X')]. *)
Definition lower (c : N) : N := N.lor c 32.

(** The digit a byte stands for in [ParseUint], any base. *)
Definition digit_of (c : ascii) : option N :=
  let b := N_of_ascii c in
  if (48 <=? b) && (b <=? 57) then Some (b - 48)
  else if (97 <=? lower b) && (lower b <=? 122) then Some (lower b - 97 + 10)
  else None.

(** [cutoff = maxUint64/10 + 1]: the smallest number whose tenfold
    exceeds [maxUint64]. *)
Definition cutoff : N := MaxUint64 / 10 + 1.

(** The digit loop of [ParseUint] for base 10 and bit size 64, entered
    with the value [n] read so far. *)
Fixpoint parseDigits (s : string) (n : N) : NumErrKind + N :=
  match s with
  | EmptyString => inr n
  | String c s' =>
      match digit_of c with
      | None => inl ErrSyntax
      | Some d =>
          if 10 <=? d then inl ErrSyntax
          else if cutoff <=? n then inl ErrRange
          else
            let n10 := (n * 10) mod 2 ^ 64 in
            let n1 := (n10 + d) mod 2 ^ 64 in
            if (n1 <? n10) || (MaxUint64 <? n1) then inl ErrRange
            else parseDigits s' n1
      end
  end.

(** [strconv.ParseUint(s, 10, 64)] *)
Definition ParseUint (s : string) : error + N :=
  match s with
  | EmptyString => inl (strconv_NumError "ParseUint" s ErrSyntax)
  | _ =>
      match parseDigits s 0 with
      | inl k => inl (strconv_NumError "ParseUint" s k)
      | inr n => inr n
      end
  end.

End Go.

(** ** client.go *)

Module Client.

(** What the HTTP exchange of [GetBundleBlocksRange] delivers, step by
    step: the transport is outside the embedding. *)
Record BundleNameExchange := mkExchange {
  newRequestErr : option error;      (* http.NewRequest *)
  doErr : option error;              (* c.hc.Do *)
  statusCode : N;                    (* resp.StatusCode *)
  readAllErr : option error;         (* io.ReadAll *)
  unmarshalled : error + string      (* json.Unmarshal; the Data field *)
}.

Definition StatusOK : N := 200.

(** Results of [GetBundleBlocksRange]: [(startSlot, endSlot, err)]. *)
Definition RangeResult : Type := N * N * option error.

(** Lines 102-112: from the bundle name to the two slots. *)
Definition parseBundleName (bundleName : string) : outcome RangeResult :=
  let parts := Go.Split bundleName "_" in
  match Go.index parts 1 with
  | Panic msg => Panic msg
  | Return p1 =>
      match Go.slice_from_1 p1 with
      | Panic msg => Panic msg
      | Return s1 =>
          match Go.ParseUint s1 with
          | inl err => Return (0, 0, Some err)
          | inr startSlot =>
              match Go.index parts 2 with
              | Panic msg => Panic msg
              | Return p2 =>
                  match Go.slice_from_1 p2 with
                  | Panic msg => Panic msg
                  | Return s2 =>
                      match Go.ParseUint s2 with
                      | inl err => Return (0, 0, Some err)
                      | inr endSlot => Return (startSlot, endSlot, None)
                      end
                  end
              end
          end
      end
  end.

Definition GetBundleBlocksRange (x : BundleNameExchange)
  : outcome RangeResult :=
  match newRequestErr x with
  | Some err => Return (0, 0, Some err)
  | None =>
      match doErr x with
      | Some err => Return (0, 0, Some err)
      | None =>
          if negb (statusCode x =? StatusOK)
          then Return (0, 0, Some (errors_New "failed to get bundle name"))
          else
            match readAllErr x with
            | Some err => Return (0, 0, Some err)
            | None =>
                match unmarshalled x with
                | inl err => Return (0, 0, Some err)
                | inr bundleName => parseBundleName bundleName
                end
            end
      end
  end.

(** *** Well-formed bundle names, as the specification writes them *)

Definition is_decimal_digit (c : ascii) : bool :=
  (48 <=? N_of_ascii c) && (N_of_ascii c <=? 57).

Fixpoint all_digits (s : string) : bool :=
  match s with
  | EmptyString => true
  | String c s' => is_decimal_digit c && all_digits s'
  end.

(** The number that the digits of [s] write after the number [n]. *)
Fixpoint decimal_after (s : string) (n : N) : N :=
  match s with
  | EmptyString => n
  | String c s' => decimal_after s' (10 * n + (N_of_ascii c - 48))
  end.

(** The number a string of decimal digits denotes. *)
Definition decimal_value (s : string) : N := decimal_after s 0.

(** A decimal numeral: digits, at least one. *)
Definition is_decimal (s : string) : Prop :=
  s ≠ EmptyString ∧ all_digits s = true.

Fixpoint has_underscore (s : string) : bool :=
  match s with
  | EmptyString => false
  | String c s' => Ascii.eqb c "_" || has_underscore s'
  end.

(** [<prefix>_s<start>_e<end>] *)
Definition bundle_name (prefix start end_ : string) : string :=
  prefix +:+ "_s" +:+ start +:+ "_e" +:+ end_.

(** An exchange that succeeds and delivers [bundleName]. *)
Definition delivers (bundleName : string) : BundleNameExchange :=
  {| newRequestErr := None; doErr := None; statusCode := StatusOK;
     readAllErr := None; unmarshalled := inr bundleName |}.

End Client.

(** ** The caches

    Modelled from the spec: the fixed-capacity least-recently-used cache
    ([lru.Cache] of [common/lru]) is not among the sources.  The spec
    takes it as a capability with [get(key) -> value?] and
    [add(key, value)], evicting the least recently used entry when the
    capacity is exceeded.  The entries are kept most recently used first. *)

Module Cache.
Section cache.
Context {K V : Type} `{EqDecision K}.

Record t := mk { capacity : nat; entries : list (K * V) }.

Definition New (capacity : nat) : t :=
  {| capacity := capacity; entries := [] |}.

Fixpoint assoc (k : K) (l : list (K * V)) : option V :=
  match l with
  | [] => None
  | (k', v) :: l' => if decide (k' = k) then Some v else assoc k l'
  end.

Fixpoint remove (k : K) (l : list (K * V)) : list (K * V) :=
  match l with
  | [] => []
  | (k', v) :: l' =>
      if decide (k' = k) then remove k l' else (k', v) :: remove k l'
  end.

(** The value under [k], if any; the cache is left as it is. *)
Definition peek (c : t) (k : K) : option V := assoc k (entries c).

(** [Get]: the value under [k], which becomes the most recently used. *)
Definition Get (c : t) (k : K) : option V * t :=
  match assoc k (entries c) with
  | Some v =>
      (Some v,
       {| capacity := capacity c; entries := (k, v) :: remove k (entries c) |})
  | None => (None, c)
  end.

(** [Add]: [k] is bound to [v] and becomes the most recently used; the
    entries beyond the capacity, the least recently used, are dropped. *)
Definition Add (c : t) (k : K) (v : V) : t :=
  {| capacity := capacity c;
     entries := take (capacity c) ((k, v) :: remove k (entries c)) |}.
End cache.
Arguments t : clear implicits.
End Cache.

(** ** service.go *)

Module Service.

Definition GetBlockRetry : nat := 3.
(** [2 * time.Second], in nanoseconds as [time.Duration] counts. *)
Definition GetBlockRetryInterval : N := 2 * 1000000000.

(** The chain data the service handles without looking inside:
    [common.Hash], [types.Body], [types.Header], the wire [Block] of
    types.go with its [Number] field, and [GeneralBlock] with the methods
    the service calls on it. *)
Class Chain := {
  Hash : Type;
  Hash_eq_dec :: EqDecision Hash;
  Body : Type;
  Header : Type;
  Block : Type;
  GeneralBlock : Type;
  block_Number : Block → string;
  gb_Hash : GeneralBlock → Hash;
  gb_Body : GeneralBlock → Body;
  gb_Header : GeneralBlock → Header;
  gb_NumberU64 : GeneralBlock → N
}.

(** A Go pointer: [None] is [nil]. *)
Definition ptr (A : Type) : Type := option A.

Section service.
Context `{Chain}.

(** The fields of [BlockArchiverService] that hold state. *)
Record BlockArchiverService := mkService {
  bodyCache : Cache.t Hash (ptr Body);
  headerCache : Cache.t Hash (ptr Header);
  hashCache : Cache.t N Hash;
  requestLock : Lock.RequestLock
}.

Definition NewBlockArchiverService
    (bodyCache : Cache.t Hash (ptr Body))
    (headerCache : Cache.t Hash (ptr Header)) (cacheSize : nat)
  : BlockArchiverService :=
  {| bodyCache := bodyCache; headerCache := headerCache;
     hashCache := Cache.New cacheSize;
     requestLock := Lock.NewRequestLock |}.

Definition set_bodyCache (c : BlockArchiverService) x :=
  mkService x (headerCache c) (hashCache c) (requestLock c).
Definition set_headerCache (c : BlockArchiverService) x :=
  mkService (bodyCache c) x (hashCache c) (requestLock c).
Definition set_hashCache (c : BlockArchiverService) x :=
  mkService (bodyCache c) (headerCache c) x (requestLock c).
Definition set_requestLock (c : BlockArchiverService) x :=
  mkService (bodyCache c) (headerCache c) (hashCache c) x.

(** What lies outside the service: the remote archive behind the
    client, the two conversions of the package that are not among the
    sources ([convertBlock], [HexToUint64]), and the other goroutines,
    which act on the shared caches and lock while this one sleeps. *)
Record World := mkWorld {
  bundleNameExchange : N → Client.BundleNameExchange;
  client_GetBundleBlocksByBlockNum : N → error + list (ptr Block);
  client_GetBlockByHash : Hash → error + ptr Block;
  convertBlock : ptr Block → outcome (error + ptr GeneralBlock);
  HexToUint64 : string → error + N;
  whileAsleep : BlockArchiverService → BlockArchiverService
}.

(** What a call does that others can see, in order. *)
Inductive event :=
  | EvIsWithinAnyRange (num : N)
  | EvAddRange (from to : N)
  | EvRemoveRange (from to : N)
  | EvSleep (nanoseconds : N)
  | EvGetBundleBlocksRange (blockNum : N)
  | EvGetBundleBlocksByBlockNum (blockNum : N)
  | EvClientGetBlockByHash (hash : Hash).

Definition is_remote_event (e : event) : bool :=
  match e with
  | EvGetBundleBlocksRange _ | EvGetBundleBlocksByBlockNum _
  | EvClientGetBlockByHash _ => true
  | _ => false
  end.

(** The three results of a lookup: body pointer, header pointer, error. *)
Definition Result : Type := ptr Body * ptr Header * option error.

(** A call that ends: its outcome, the service after it and what it
    did. *)
Definition Ended : Type :=
  outcome Result * BlockArchiverService * list event.

Variable w : World.

(** The cache check, written twice in the source (lines 264-271 and
    283-290): the hash of [number], then body and header under that
    hash; [Some] when all three are found. *)
Definition cachedBlock (number : N) (c : BlockArchiverService)
  : option (ptr Body * ptr Header) * BlockArchiverService :=
  match Cache.Get (hashCache c) number with
  | (Some hash, hc) =>
      let '(body, bc) := Cache.Get (bodyCache c) hash in
      let '(header, hdc) := Cache.Get (headerCache c) hash in
      let c' := mkService bc hdc hc (requestLock c) in
      match body, header with
      | Some b, Some h => (Some (b, h), c')
      | _, _ => (None, c')
      end
  | (None, hc) => (None, set_hashCache c hc)
  end.

(** [for retry := 0; retry < GetBlockRetry; retry++], with [remaining]
    the rounds left, [GetBlockRetry - retry], and the
    ["block not found"] return after the loop. *)
Fixpoint waitLoop (remaining : nat) (number : N)
    (c : BlockArchiverService) (log : list event)
  : Result * BlockArchiverService * list event :=
  match remaining with
  | O => ((None, None, Some (errors_New "block not found")), c, log)
  | S remaining' =>
      match cachedBlock number c with
      | (Some (body, header), c') => ((body, header, None), c', log)
      | (None, c') =>
          waitLoop remaining' number (whileAsleep w c')
            (log ++ [EvSleep GetBlockRetryInterval])
      end
  end.

(** [for _, b := range blocks], with the [body] and [header] found so
    far, and the return after the loop. *)
Fixpoint populate (blocks : list (ptr Block)) (number : N)
    (body : ptr Body) (header : ptr Header) (c : BlockArchiverService)
  : outcome Result * BlockArchiverService :=
  match blocks with
  | [] => (Return (body, header, None), c)
  | b :: blocks' =>
      match convertBlock w b with
      | Panic msg => (Panic msg, c)
      | Return (inl err) => (Return (None, None, Some err), c)
      | Return (inr None) => (Panic "nil pointer dereference", c)
      | Return (inr (Some block)) =>
          let c1 :=
            set_bodyCache c
              (Cache.Add (bodyCache c) (gb_Hash block) (Some (gb_Body block))) in
          let c2 :=
            set_headerCache c1
              (Cache.Add (headerCache c1) (gb_Hash block)
                 (Some (gb_Header block))) in
          let c3 :=
            set_hashCache c2
              (Cache.Add (hashCache c2) (gb_NumberU64 block) (gb_Hash block)) in
          if gb_NumberU64 block =? number
          then populate blocks' number (Some (gb_Body block))
                 (Some (gb_Header block)) c3
          else populate blocks' number body header c3
      end
  end.

(** Lines 307-329: what runs between the [defer] and the return. *)
Definition fetchBundle (number : N) (c : BlockArchiverService)
    (log : list event) : Ended :=
  let log := log ++ [EvGetBundleBlocksByBlockNum number] in
  match client_GetBundleBlocksByBlockNum w number with
  | inl err => (Return (None, None, Some err), c, log)
  | inr blocks =>
      let '(out, c') := populate blocks number None None c in
      (out, c', log)
  end.

(** [None]: the call has not ended within the fuel. *)
Definition getBlockByNumber (fuel : nat) (number : N)
    (c : BlockArchiverService) (log : list event) : option Ended :=
  let log := log ++ [EvIsWithinAnyRange number] in
  if Lock.IsWithinAnyRange (requestLock c) number then
    let '(r, c', log') := waitLoop GetBlockRetry number c log in
    Some (Return r, c', log')
  else
    let log := log ++ [EvGetBundleBlocksRange number] in
    match Client.GetBundleBlocksRange (bundleNameExchange w number) with
    | Panic msg => Some (Panic msg, c, log)
    | Return (_, _, Some err) => Some (Return (None, None, Some err), c, log)
    | Return (start, end_, None) =>
        let log := log ++ [EvAddRange start end_] in
        match Lock.AddRange fuel start end_ (requestLock c) with
        | None => None
        | Some rl =>
            let '(out, c', log') :=
              fetchBundle number (set_requestLock c rl) log in
            (* the deferred call, on return and on panic alike *)
            let log' := log' ++ [EvRemoveRange start end_] in
            match Lock.RemoveRange fuel start end_ (requestLock c') with
            | None => None
            | Some rl' => Some (out, set_requestLock c' rl', log')
            end
        end
    end.

Definition GetBlockByNumber (fuel : nat) (number : N)
    (c : BlockArchiverService) (log : list event) : option Ended :=
  match cachedBlock number c with
  | (Some (body, header), c') => Some (Return (body, header, None), c', log)
  | (None, c') => getBlockByNumber fuel number c' log
  end.

Definition GetBlockByHash (fuel : nat) (hash : Hash)
    (c : BlockArchiverService) (log : list event) : option Ended :=
  let '(body, bc) := Cache.Get (bodyCache c) hash in
  let '(header, hdc) := Cache.Get (headerCache c) hash in
  let c := mkService bc hdc (hashCache c) (requestLock c) in
  match body, header with
  | Some b, Some h => Some (Return (b, h, None), c, log)
  | _, _ =>
      let log := log ++ [EvClientGetBlockByHash hash] in
      match client_GetBlockByHash w hash with
      | inl err => Some (Return (None, None, Some err), c, log)
      | inr None => Some (Return (None, None, None), c, log)
      | inr (Some block) =>
          match HexToUint64 w (block_Number block) with
          | inl err => Some (Return (None, None, Some err), c, log)
          | inr number => getBlockByNumber fuel number c log
          end
      end
  end.

(** The cache triplet holds [number]: a hash for it, and a body and a
    header under that hash. *)
Definition fully_cached (c : BlockArchiverService) (number : N)
    (body : ptr Body) (header : ptr Header) : Prop :=
  ∃ hash, Cache.peek (hashCache c) number = Some hash
          ∧ Cache.peek (bodyCache c) hash = Some body
          ∧ Cache.peek (headerCache c) hash = Some header.

Definition cache_miss (c : BlockArchiverService) (number : N) : Prop :=
  ∀ body header, ¬ fully_cached c number body header.

(** A body and a header are both cached under [hash]. *)
Definition cached_by_hash (c : BlockArchiverService) (hash : Hash)
    (body : ptr Body) (header : ptr Header) : Prop :=
  Cache.peek (bodyCache c) hash = Some body
  ∧ Cache.peek (headerCache c) hash = Some header.

(** The same lock and the same cached bindings; the order in which the
    caches would evict may differ. *)
Definition same_contents (c c' : BlockArchiverService) : Prop :=
  requestLock c' = requestLock c
  ∧ (∀ k, Cache.peek (hashCache c') k = Cache.peek (hashCache c) k)
  ∧ (∀ k, Cache.peek (bodyCache c') k = Cache.peek (bodyCache c) k)
  ∧ (∀ k, Cache.peek (headerCache c') k = Cache.peek (headerCache c) k).

(** The service as round [k] of the wait loop finds it: after [k] cache
    checks, each followed by a sleep. *)
Fixpoint atRound (k : nat) (number : N) (c : BlockArchiverService)
  : BlockArchiverService :=
  match k with
  | O => c
  | S k' => whileAsleep w (cachedBlock number (atRound k' number c)).2
  end.

(** Lines 320-322: the three cache writes for one converted block, in
    the order of the source. *)
Definition cacheBlock (block : GeneralBlock) (c : BlockArchiverService)
  : BlockArchiverService :=
  let c1 :=
    set_bodyCache c
      (Cache.Add (bodyCache c) (gb_Hash block) (Some (gb_Body block))) in
  let c2 :=
    set_headerCache c1
      (Cache.Add (headerCache c1) (gb_Hash block) (Some (gb_Header block))) in
  set_hashCache c2
    (Cache.Add (hashCache c2) (gb_NumberU64 block) (gb_Hash block)).

(** [convertBlock] turns each of [blocks] into the block of [gs] at the
    same place, without error. *)
Definition converts (blocks : list (ptr Block)) (gs : list GeneralBlock)
  : Prop :=
  Forall2 (λ b g, convertBlock w b = Return (inr (Some g))) blocks gs.

(** Each of the three caches can take [n] more entries without
    evicting. *)
Definition has_room (n : nat) (c : BlockArchiverService) : Prop :=
  (List.length (Cache.entries (bodyCache c)) + n
   ≤ Cache.capacity (bodyCache c))%nat ∧
  (List.length (Cache.entries (headerCache c)) + n
   ≤ Cache.capacity (headerCache c))%nat ∧
  (List.length (Cache.entries (hashCache c)) + n
   ≤ Cache.capacity (hashCache c))%nat.

(** The cache triplet holds block [g] as its number, under its hash. *)
Definition holds_block (c : BlockArchiverService) (g : GeneralBlock) : Prop :=
  Cache.peek (hashCache c) (gb_NumberU64 g) = Some (gb_Hash g)
  ∧ Cache.peek (bodyCache c) (gb_Hash g) = Some (Some (gb_Body g))
  ∧ Cache.peek (headerCache c) (gb_Hash g) = Some (Some (gb_Header g)).
End service.

End Service.

(** ** client.go: the JSON-RPC calls *)

Module Rpc.

(** A value of a request payload ([interface{}]): the payloads of the
    client hold strings, lists of strings and one integer. *)
Inductive value :=
  | VString (s : string)
  | VList (l : list string)
  | VInt (z : Z).

Definition preparePayload (method : string) (params : list string)
  : gmap string value :=
  {[ "jsonrpc" := VString "2.0";
     "method" := VString method;
     "params" := VList params;
     "id" := VInt 1 ]}.

(** What the HTTP exchange of [postRequest] delivers, step by step. *)
Record PostExchange := mkPost {
  marshalErr : option error;         (* json.Marshal *)
  postNewRequestErr : option error;  (* http.NewRequest *)
  postDoErr : option error;          (* c.hc.Do *)
  postStatusCode : N;                (* resp.StatusCode *)
  postReadAll : error + string       (* io.ReadAll *)
}.

Definition postRequest (x : PostExchange) : error + string :=
  match marshalErr x with
  | Some err => inl err
  | None =>
      match postNewRequestErr x with
      | Some err => inl err
      | None =>
          match postDoErr x with
          | Some err => inl err
          | None =>
              if negb (postStatusCode x =? Client.StatusOK)
              then inl (errors_New "failed to get response")
              else postReadAll x
          end
      end
  end.

(** [int64(number)] for a [uint64]: the same 64 bits read as signed. *)
Definition int64_of_uint64 (number : N) : Z :=
  if number <? 2 ^ 63 then Z.of_N number
  else (Z.of_N number - 2 ^ 64)%Z.

Section rpc.
Context `{Service.Chain}.

(** [JsonError], [GetBlockResponse] and [GetBlocksResponse] of types.go. *)
Record JsonError := mkJsonError {
  Code : Z;
  Message : string;
  Data : option string
}.

Record GetBlockResponse := mkBlockResponse {
  block_ID : Z;
  block_Error : Service.ptr JsonError;
  block_Jsonrpc : string;
  block_Result : Service.ptr Service.Block
}.

Record GetBlocksResponse := mkBlocksResponse {
  blocks_ID : Z;
  blocks_Error : Service.ptr JsonError;
  blocks_Jsonrpc : string;
  blocks_Result : list (Service.ptr Service.Block)
}.

(** What the client relies on and the sources do not hold: the archive
    that answers a payload, [json.Unmarshal] into the two response
    types, [hash.String()] and [Int64ToHex]. *)
Record Transport := mkTransport {
  send : gmap string value → PostExchange;
  unmarshalBlock : string → error + GetBlockResponse;
  unmarshalBlocks : string → error + GetBlocksResponse;
  hashString : Service.Hash → string;
  Int64ToHex : Z → string
}.

Variable t : Transport.

(** Lines 37-49: post the payload, decode the body, return [Result]. *)
Definition GetBlockByHash (hash : Service.Hash)
  : error + Service.ptr Service.Block :=
  let payload :=
    preparePayload "eth_getBlockByHash" [hashString t hash; "true"] in
  match postRequest (send t payload) with
  | inl err => inl err
  | inr body =>
      match unmarshalBlock t body with
      | inl err => inl err
      | inr getBlockResp => inr (block_Result getBlockResp)
      end
  end.

Definition GetBundleBlocksByBlockNum (blockNum : N)
  : error + list (Service.ptr Service.Block) :=
  let payload :=
    preparePayload "eth_getBundledBlockByNumber"
      [Int64ToHex t (int64_of_uint64 blockNum)] in
  match postRequest (send t payload) with
  | inl err => inl err
  | inr body =>
      match unmarshalBlocks t body with
      | inl err => inl err
      | inr getBlocksResp => inr (blocks_Result getBlocksResp)
      end
  end.

(** A reply to [payload] with status 200 whose body decodes to a block
    response with the JSON-RPC error [e] and no result. *)
Definition error_reply (payload : gmap string value) (e : JsonError) : Prop :=
  ∃ body id ver,
    postRequest (send t payload) = inr body
    ∧ unmarshalBlock t body = inr (mkBlockResponse id (Some e) ver None).

End rpc.

End Rpc.

(** ** A small chain to run the service on

  Hashes and blocks are numbers, bodies and headers are strings; the
  block numbered [n] has hash [n + 1000]. *)

Module Demo.
Import Service.

#[export] Instance chain : Chain := {|
  Hash := N;
  Body := string;
  Header := string;
  Block := N;
  GeneralBlock := N;
  block_Number := λ _, "0x0";
  gb_Hash := λ n, n + 1000;
  gb_Body := λ _, "body";
  gb_Header := λ _, "header";
  gb_NumberU64 := λ n, n
|}.

(** An archive whose bundle of [blockNum] is [blocks_s100_e102], whose
    bundle fetch fails, and which knows no block by hash; no other
    goroutine runs. *)
Definition failing_world : World := {|
  bundleNameExchange := λ _, Client.delivers "blocks_s100_e102";
  client_GetBundleBlocksByBlockNum := λ _, inl (upstream_error "timeout");
  client_GetBlockByHash := λ _, inr None;
  convertBlock := λ b, Return (inr b);
  HexToUint64 := λ _, inr 0;
  whileAsleep := λ c, c
|}.

Definition empty_service : BlockArchiverService :=
  NewBlockArchiverService (Cache.New 8) (Cache.New 8) 8.

(** Block 101 with its three cache entries. *)
Definition warm_service : BlockArchiverService :=
  {| bodyCache := Cache.Add (Cache.New 8) 1101 (Some "body");
     headerCache := Cache.Add (Cache.New 8) 1101 (Some "header");
     hashCache := Cache.Add (Cache.New 8) 101 1101;
     requestLock := Lock.NewRequestLock |}.

(** Another goroutine holds the range of block 101 and never fills the
    caches. *)
Definition waiting_service : BlockArchiverService :=
  {| bodyCache := Cache.New 8;
     headerCache := Cache.New 8;
     hashCache := Cache.New 8;
     requestLock :=
       {| Lock.rangeMap := {[ 100 := Lock.mkRange 100 102 ]};
          Lock.lookupMap := {[ 100 := true; 101 := true; 102 := true ]} |} |}.

(** An archive that serves the bundle [[100, 102]] whole and the bundle
    [[200, 202]] with a nil block in the middle, which does not
    convert. *)
Definition serving_world : World := {|
  bundleNameExchange := λ n,
    if n <? 200 then Client.delivers "blocks_s100_e102"
    else Client.delivers "blocks_s200_e202";
  client_GetBundleBlocksByBlockNum := λ n,
    if n <? 200 then inr [Some 100; Some 101; Some 102]
    else inr [Some 200; None; Some 202];
  client_GetBlockByHash := λ h, inr (Some (h - 1000));
  convertBlock := λ b,
    match b with
    | Some n => Return (inr (Some n))
    | None => Return (inl (upstream_error "nil block"))
    end;
  HexToUint64 := λ _, inr 101;
  whileAsleep := λ c, c
|}.

(** An archive that names a bundle ending at the largest [uint64]. *)
Definition endless_world : World := {|
  bundleNameExchange := λ _,
    Client.delivers "blocks_s18446744073709551000_e18446744073709551615";
  client_GetBundleBlocksByBlockNum := λ _, inr [];
  client_GetBlockByHash := λ _, inr None;
  convertBlock := λ b, Return (inr b);
  HexToUint64 := λ _, inr 0;
  whileAsleep := λ c, c
|}.

(** A transport whose archive answers every call with status 200 and a
    JSON-RPC error, no result. *)
Definition refusing_transport : Rpc.Transport := {|
  Rpc.send := λ _, Rpc.mkPost None None None 200 (inr "{error}");
  Rpc.unmarshalBlock := λ _,
    inr (Rpc.mkBlockResponse 1 (Some (Rpc.mkJsonError (-32000) "not found" None))
           "2.0" None);
  Rpc.unmarshalBlocks := λ _,
    inr (Rpc.mkBlocksResponse 1
           (Some (Rpc.mkJsonError (-32000) "not found" None)) "2.0" []);
  Rpc.hashString := λ _, "0x";
  Rpc.Int64ToHex := λ _, "0x"
|}.

(** The service's view of that archive. *)
Definition refused_world : World := {|
  bundleNameExchange := λ _, Client.delivers "blocks_s100_e102";
  client_GetBundleBlocksByBlockNum :=
    Rpc.GetBundleBlocksByBlockNum refusing_transport;
  client_GetBlockByHash := Rpc.GetBlockByHash refusing_transport;
  convertBlock := λ b, Return (inr b);
  HexToUint64 := λ _, inr 0;
  whileAsleep := λ c, c
|}.
End Demo.

(** * Properties *)

(** ** The loop over a range of identifiers *)

Section for_range.
Import Lock.
Context {T : Type} (body : N → T → T).

Lemma uint64_succ_below (i : N) : i < MaxUint64 → uint64_succ i = i + 1.
Proof.
  unfold uint64_succ, MaxUint64. intros Hi.
  apply N.mod_small. lia.
Qed.

Lemma uint64_succ_bounded (i : N) : uint64_succ i <= MaxUint64.
Proof.
  unfold uint64_succ, MaxUint64.
  pose proof (N.mod_upper_bound (i + 1) (2 ^ 64)) as Hm. lia.
Qed.

(** More fuel does not change a result. *)
Lemma forRange_more_fuel (fuel fuel' : nat) (i to : N) (s s' : T) :
  forRange fuel i to body s = Some s' → (fuel ≤ fuel')%nat →
  forRange fuel' i to body s = Some s'.
Proof.
  revert fuel' i s. induction fuel as [|fuel IH]; intros fuel' i s; [done|].
  destruct fuel' as [|fuel']; [lia|]. simpl.
  destruct (i <=? to); [|done].
  intros Hrun Hle. apply IH; [done|lia].
Qed.

(** The loop ends when [to] is not the largest [uint64]. *)
Lemma forRange_ends (fuel : nat) (i to : N) (s : T) :
  to < MaxUint64 → (loop_fuel i to ≤ fuel)%nat →
  is_Some (forRange fuel i to body s).
Proof.
  intros Hto. unfold loop_fuel. revert i s.
  induction fuel as [|fuel IH]; intros i s Hfuel; [lia|].
  simpl. destruct (N.leb_spec i to) as [Hle|Hgt]; [|by eexists].
  rewrite uint64_succ_below by lia. apply IH. lia.
Qed.

(** The loop does not end when [to] is the largest [uint64]: the test
    [i <= to] holds for every [uint64]. *)
Lemma forRange_never_ends (fuel : nat) (i to : N) (s : T) :
  MaxUint64 <= to → i <= MaxUint64 → forRange fuel i to body s = None.
Proof.
  intros Hto. revert i s. induction fuel as [|fuel IH]; intros i s Hi; [done|].
  simpl. destruct (N.leb_spec i to) as [_|Hgt]; [|lia].
  apply IH, uint64_succ_bounded.
Qed.

(** A loop that ends has carried an invariant from [i] to [to + 1]. *)
Lemma forRange_invariant (P : N → T → Prop) (fuel : nat) (i to : N)
    (s s' : T) :
  i <= to + 1 → i <= MaxUint64 →
  (∀ j t, i <= j <= to → P j t → P (j + 1) (body j t)) →
  P i s → forRange fuel i to body s = Some s' → P (to + 1) s'.
Proof.
  intros Hi Hmax Hstep Hinit Hrun.
  destruct (N.le_gt_cases MaxUint64 to) as [Hbig|Hsmall].
  { by rewrite forRange_never_ends in Hrun. }
  clear Hmax. revert i s Hi Hstep Hinit Hrun.
  induction fuel as [|fuel IH]; intros i s Hi Hstep Hinit; [done|].
  simpl. destruct (N.leb_spec i to) as [Hle|Hgt].
  - rewrite uint64_succ_below by lia. apply IH; [lia| |].
    + intros j t Hj. apply Hstep. lia.
    + apply Hstep; [lia|done].
  - intros [= <-]. by replace (to + 1) with i by lia.
Qed.

(** An empty range leaves the state as it is. *)
Lemma forRange_empty (fuel : nat) (i to : N) (s s' : T) :
  to < i → forRange fuel i to body s = Some s' → s' = s.
Proof.
  destruct fuel as [|fuel]; [done|]. simpl.
  intros Hgt. destruct (N.leb_spec i to); [lia|]. by intros [= <-].
Qed.
End for_range.

(** ** RequestLock *)

Section request_lock.
Import Lock.

Lemma AddRange_lookup (fuel : nat) (from to : N) (rc rc' : RequestLock) (x : N) :
  AddRange fuel from to rc = Some rc' →
  lookupMap rc' !! x =
    if decide (from <= x <= to) then Some true else lookupMap rc !! x.
Proof.
  unfold AddRange.
  destruct (forRange _ _ _ _ _) as [lm|] eqn:Hrun; [|done].
  intros [= <-]. simpl.
  destruct (N.le_gt_cases from to) as [Hle|Hgt].
  - destruct (N.le_gt_cases from MaxUint64) as [Hf|Hf].
    2:{ (* [from] is no uint64: the loop cannot have ended *)
      exfalso. revert Hrun. generalize (lookupMap rc).
      destruct fuel as [|fuel]; [done|]. simpl. intros m.
      destruct (N.leb_spec from to); [|lia].
      rewrite forRange_never_ends; [done|lia|apply uint64_succ_bounded]. }
    assert (∀ y, lm !! y = if decide (from <= y < to + 1)
                           then Some true else lookupMap rc !! y) as Hall.
    2:{ rewrite Hall. repeat case_decide; done || lia. }
    pose (P := λ (j : N) (m : gmap N bool),
            ∀ y, m !! y = if decide (from <= y < j)
                          then Some true else lookupMap rc !! y).
    apply (λ Hi Hm Hs H0, forRange_invariant _ P fuel from to
                            (lookupMap rc) lm Hi Hm Hs H0 Hrun);
      subst P; simpl; [lia|done| |].
    + intros j t Hj Ht y. destruct (decide (j = y)) as [->|Hne].
      * rewrite lookup_insert_eq. case_decide; [done|lia].
      * rewrite lookup_insert_ne by done. rewrite Ht.
        repeat case_decide; done || lia.
    + intros y. case_decide; [lia|done].
  - apply forRange_empty in Hrun as ->; [|done].
    case_decide; [lia|done].
Qed.

Lemma RemoveRange_lookup (fuel : nat) (from to : N) (rc rc' : RequestLock) (x : N) :
  RemoveRange fuel from to rc = Some rc' →
  lookupMap rc' !! x =
    if decide (from <= x <= to) then None else lookupMap rc !! x.
Proof.
  unfold RemoveRange.
  destruct (forRange _ _ _ _ _) as [lm|] eqn:Hrun; [|done].
  intros [= <-]. simpl.
  destruct (N.le_gt_cases from to) as [Hle|Hgt].
  - destruct (N.le_gt_cases from MaxUint64) as [Hf|Hf].
    2:{ exfalso. revert Hrun. generalize (lookupMap rc).
      destruct fuel as [|fuel]; [done|]. simpl. intros m.
      destruct (N.leb_spec from to); [|lia].
      rewrite forRange_never_ends; [done|lia|apply uint64_succ_bounded]. }
    assert (∀ y, lm !! y = if decide (from <= y < to + 1)
                           then None else lookupMap rc !! y) as Hall.
    2:{ rewrite Hall. repeat case_decide; done || lia. }
    pose (P := λ (j : N) (m : gmap N bool),
            ∀ y, m !! y = if decide (from <= y < j)
                          then None else lookupMap rc !! y).
    apply (λ Hi Hm Hs H0, forRange_invariant _ P fuel from to
                            (lookupMap rc) lm Hi Hm Hs H0 Hrun);
      subst P; simpl; [lia|done| |].
    + intros j t Hj Ht y. destruct (decide (j = y)) as [->|Hne].
      * rewrite lookup_delete_eq. case_decide; [done|lia].
      * rewrite lookup_delete_ne by done. rewrite Ht.
        repeat case_decide; done || lia.
    + intros y. case_decide; [lia|done].
  - apply forRange_empty in Hrun as ->; [|done].
    case_decide; [lia|done].
Qed.

Lemma AddRange_rangeMap (fuel : nat) (from to : N) (rc rc' : RequestLock) :
  AddRange fuel from to rc = Some rc' →
  rangeMap rc' = <[from := mkRange from to]> (rangeMap rc).
Proof.
  unfold AddRange. destruct (forRange _ _ _ _ _); [|done]. by intros [= <-].
Qed.

Lemma RemoveRange_rangeMap (fuel : nat) (from to : N) (rc rc' : RequestLock) :
  RemoveRange fuel from to rc = Some rc' →
  rangeMap rc' = delete from (rangeMap rc).
Proof.
  unfold RemoveRange. destruct (forRange _ _ _ _ _); [|done]. by intros [= <-].
Qed.

Lemma AddRange_ends (fuel : nat) (from to : N) (rc : RequestLock) :
  to < MaxUint64 → (loop_fuel from to ≤ fuel)%nat →
  is_Some (AddRange fuel from to rc).
Proof.
  intros Hto Hfuel. unfold AddRange.
  destruct (forRange_ends (λ i lm, <[i := true]> lm) fuel from to
              (lookupMap rc) Hto Hfuel) as [lm ->].
  by eexists.
Qed.

Lemma RemoveRange_ends (fuel : nat) (from to : N) (rc : RequestLock) :
  to < MaxUint64 → (loop_fuel from to ≤ fuel)%nat →
  is_Some (RemoveRange fuel from to rc).
Proof.
  intros Hto Hfuel. unfold RemoveRange.
  destruct (forRange_ends (λ i lm, delete i lm) fuel from to
              (lookupMap rc) Hto Hfuel) as [lm ->].
  by eexists.
Qed.

Lemma IsWithinAnyRange_true (rc : RequestLock) (x : N) :
  IsWithinAnyRange rc x = true ↔ is_Some (lookupMap rc !! x).
Proof.
  unfold IsWithinAnyRange. destruct (lookupMap rc !! x).
  - split; [by eexists|done].
  - split; [done|]. by intros [? ?].
Qed.
End request_lock.

Section request_lock_claims.
Import Lock.

(** C5: for [from ≤ to], [AddRange(from, to)] returns when [to] is below
    the largest [uint64], and once it has returned [IsWithinAnyRange(x)]
    is true for every [x] in [[from, to]] and as before for every other
    [x]. *)
Theorem AddRange_IsWithinAnyRange (from to : N) (rc : RequestLock) :
  from <= to →
  (to < MaxUint64 → is_Some (AddRange (loop_fuel from to) from to rc)) ∧
  ∀ fuel rc', AddRange fuel from to rc = Some rc' →
    (∀ x, from <= x <= to → IsWithinAnyRange rc' x = true) ∧
    (∀ x, ¬ from <= x <= to →
          IsWithinAnyRange rc' x = IsWithinAnyRange rc x).
Proof.
  intros Hle. split.
  - intros Hto. by apply AddRange_ends.
  - intros fuel rc' Hadd. split; intros x Hx; unfold IsWithinAnyRange;
      rewrite (AddRange_lookup _ _ _ _ _ x Hadd); by case_decide.
Qed.

(** The single-element range of C5: [AddRange(5,5)] on a new lock. *)
Lemma AddRange_IsWithinAnyRange_witness :
  5 <= 5 ∧
  ∃ rc', AddRange 2 5 5 NewRequestLock = Some rc' ∧
         IsWithinAnyRange rc' 5 = true ∧
         IsWithinAnyRange rc' 4 = false ∧
         IsWithinAnyRange rc' 6 = false.
Proof.
  assert (5 <= 5) as Hle by lia. split; [exact Hle|].
  destruct (AddRange_IsWithinAnyRange 5 5 NewRequestLock Hle) as [Hends Hafter].
  destruct Hends as [rc' Hrc']; [reflexivity|].
  exists rc'. split; [exact Hrc'|].
  destruct (Hafter _ _ Hrc') as [Hin Hout].
  split; [apply Hin; lia|].
  split; [rewrite Hout by lia|rewrite Hout by lia]; reflexivity.
Defined.
End request_lock_claims.

Section request_lock_round_trip.
Import Lock.

(** C6: for [from ≤ to] and a lock with no range overlapping
    [[from, to]], [AddRange(from, to)] followed by
    [RemoveRange(from, to)] leaves [IsWithinAnyRange(x)] false for every
    [x] in [[from, to]], and as it was before the two calls for every
    other [x]; both calls return when [to] is below the largest
    [uint64]. *)
Theorem RemoveRange_after_AddRange (from to : N) (rc : RequestLock) :
  from <= to → no_overlap rc from to →
  (to < MaxUint64 →
   ∃ rc1 rc2, AddRange (loop_fuel from to) from to rc = Some rc1 ∧
              RemoveRange (loop_fuel from to) from to rc1 = Some rc2) ∧
  ∀ fuel rc1 rc2,
    AddRange fuel from to rc = Some rc1 →
    RemoveRange fuel from to rc1 = Some rc2 →
    (∀ x, from <= x <= to → IsWithinAnyRange rc2 x = false) ∧
    (∀ x, ¬ from <= x <= to →
          IsWithinAnyRange rc2 x = IsWithinAnyRange rc x).
Proof.
  intros Hle _. split.
  - intros Hto.
    destruct (AddRange_ends (loop_fuel from to) from to rc) as [rc1 H1];
      [done..|].
    destruct (RemoveRange_ends (loop_fuel from to) from to rc1) as [rc2 H2];
      [done..|].
    by exists rc1, rc2.
  - intros fuel rc1 rc2 Hadd Hrem.
    split; intros x Hx; unfold IsWithinAnyRange;
      rewrite (RemoveRange_lookup _ _ _ _ _ x Hrem); case_decide; try done.
    by rewrite (AddRange_lookup _ _ _ _ _ x Hadd), decide_False.
Qed.

Lemma RemoveRange_after_AddRange_witness :
  ∃ rc1 rc2,
    AddRange 4 100 102 NewRequestLock = Some rc1 ∧
    RemoveRange 4 100 102 rc1 = Some rc2 ∧
    IsWithinAnyRange rc2 100 = false ∧
    IsWithinAnyRange rc2 101 = false ∧
    IsWithinAnyRange rc2 102 = false.
Proof.
  assert (100 <= 102) as Hle by lia.
  assert (no_overlap NewRequestLock 100 102) as Hfree.
  { intros k r Hk. simpl in Hk. by rewrite lookup_empty in Hk. }
  destruct (RemoveRange_after_AddRange 100 102 NewRequestLock Hle Hfree)
    as [Hends Hafter].
  destruct Hends as (rc1 & rc2 & H1 & H2); [reflexivity|].
  exists rc1, rc2. split; [exact H1|]. split; [exact H2|].
  destruct (Hafter _ _ _ H1 H2) as [Hin _].
  repeat split; apply Hin; lia.
Defined.

(** C9: [AddRange(from, to)] and [RemoveRange(from, to)] return when
    [to] is below the largest [uint64]; when [to] is the largest
    [uint64] and [from ≤ to], neither returns, whatever the fuel. *)
Theorem AddRange_RemoveRange_termination (from to : N) (rc : RequestLock) :
  (to < MaxUint64 →
   is_Some (AddRange (loop_fuel from to) from to rc) ∧
   is_Some (RemoveRange (loop_fuel from to) from to rc)) ∧
  (to = MaxUint64 → from <= to →
   ∀ fuel, AddRange fuel from to rc = None ∧
           RemoveRange fuel from to rc = None).
Proof.
  split.
  - intros Hto. split; [by apply AddRange_ends|by apply RemoveRange_ends].
  - intros -> Hle fuel. unfold AddRange, RemoveRange.
    by rewrite !forRange_never_ends.
Qed.

Lemma AddRange_RemoveRange_termination_witness :
  (is_Some (AddRange 7 3 8 NewRequestLock) ∧
   is_Some (RemoveRange 7 3 8 NewRequestLock)) ∧
  (AddRange 1000 18446744073709551610 18446744073709551615 NewRequestLock
     = None ∧
   RemoveRange 1000 18446744073709551610 18446744073709551615 NewRequestLock
     = None).
Proof.
  split.
  - apply (AddRange_RemoveRange_termination 3 8 NewRequestLock).
    reflexivity.
  - apply (AddRange_RemoveRange_termination
             18446744073709551610 18446744073709551615 NewRequestLock);
      [reflexivity|]. unfold N.le. simpl. discriminate.
Defined.
End request_lock_round_trip.

Section request_lock_invariant.
Import Lock.

Lemma not_overlaps_apart (r : Range) (from to x : N) :
  ¬ overlaps r from to → in_range r x → from <= x <= to → False.
Proof. unfold overlaps, in_range. lia. Qed.

(** The stored ranges stay well formed, and the invariant is kept, by a
    call that returns and is [call_ok]. *)
Lemma AddRange_keeps (fuel : nat) (from to : N) (rc rc' : RequestLock) :
  from <= to → same_or_apart rc from to →
  ranges_wf (rangeMap rc) → lock_invariant rc →
  AddRange fuel from to rc = Some rc' →
  ranges_wf (rangeMap rc') ∧ lock_invariant rc'.
Proof.
  intros Hle Hsame [Hkey Hapart] Hinv Hadd.
  pose proof (AddRange_rangeMap _ _ _ _ _ Hadd) as Hrm.
  assert (∀ k r, rangeMap rc' !! k = Some r →
                 r = mkRange from to ∨
                 (k ≠ from ∧ rangeMap rc !! k = Some r
                  ∧ ¬ overlaps r from to)) as Hold.
  { intros k r. rewrite Hrm. destruct (decide (from = k)) as [<-|Hne].
    - rewrite lookup_insert_eq. intros [= <-]. by left.
    - rewrite lookup_insert_ne by done. intros Hk.
      destruct (Hsame _ _ Hk) as [->|Hfar]; [by left|].
      right. by repeat split. }
  split; [split|].
  - intros k r. rewrite Hrm. destruct (decide (from = k)) as [<-|Hne].
    + rewrite lookup_insert_eq. by intros [= <-].
    + rewrite lookup_insert_ne by done. apply Hkey.
  - intros k1 r1 k2 r2 x Hk1 Hk2 Hx1 Hx2.
    assert (∀ k r, rangeMap rc' !! k = Some r → r = mkRange from to →
                   k = from) as Hfrom.
    { intros k r. rewrite Hrm. destruct (decide (from = k)) as [<-|Hne];
        [done|]. rewrite lookup_insert_ne by done.
      intros Hk ->. by destruct (Hkey _ _ Hk). }
    destruct (Hold _ _ Hk1) as [E1|(_ & Hk1' & Hfar1)],
             (Hold _ _ Hk2) as [E2|(_ & Hk2' & Hfar2)].
    + by rewrite (Hfrom _ _ Hk1 E1), (Hfrom _ _ Hk2 E2).
    + subst r1. by destruct (not_overlaps_apart _ _ _ _ Hfar2 Hx2 Hx1).
    + subst r2. by destruct (not_overlaps_apart _ _ _ _ Hfar1 Hx1 Hx2).
    + by eapply Hapart.
  - intros x. rewrite (AddRange_lookup _ _ _ _ _ x Hadd). case_decide as Hx.
    + split; [|by eexists]. intros _. exists from, (mkRange from to).
      rewrite Hrm, lookup_insert_eq. by split.
    + rewrite (Hinv x). split.
      * intros (k & r & Hk & Hin). exists k, r. split; [|done].
        rewrite Hrm. destruct (decide (from = k)) as [<-|Hne].
        -- destruct (Hsame _ _ Hk) as [->|Hfar]; [by destruct Hx|].
           destruct (Hkey _ _ Hk) as [Hfk Hne].
           exfalso. apply Hfar. unfold overlaps. lia.
        -- by rewrite lookup_insert_ne.
      * intros (k & r & Hk & Hin).
        destruct (Hold _ _ Hk) as [->|(_ & Hk' & _)]; [by destruct Hx|].
        by exists k, r.
Qed.

Lemma RemoveRange_keeps (fuel : nat) (from to : N) (rc rc' : RequestLock) :
  from <= to → same_or_apart rc from to →
  ranges_wf (rangeMap rc) → lock_invariant rc →
  RemoveRange fuel from to rc = Some rc' →
  ranges_wf (rangeMap rc') ∧ lock_invariant rc'.
Proof.
  intros Hle Hsame [Hkey Hapart] Hinv Hrem.
  pose proof (RemoveRange_rangeMap _ _ _ _ _ Hrem) as Hrm.
  split; [split|].
  - intros k r. rewrite Hrm. intros Hk.
    apply lookup_delete_Some in Hk as [_ Hk]. by apply Hkey.
  - intros k1 r1 k2 r2 x. rewrite Hrm. intros Hk1 Hk2.
    apply lookup_delete_Some in Hk1 as [_ Hk1].
    apply lookup_delete_Some in Hk2 as [_ Hk2]. by eapply Hapart.
  - intros x. rewrite (RemoveRange_lookup _ _ _ _ _ x Hrem), Hrm.
    case_decide as Hx.
    + split; [by intros [? ?]|]. intros (k & r & Hk & Hin).
      apply lookup_delete_Some in Hk as [Hne Hk].
      destruct (Hsame _ _ Hk) as [->|Hfar].
      * by destruct (Hkey _ _ Hk).
      * by destruct (not_overlaps_apart _ _ _ _ Hfar Hin Hx).
    + rewrite (Hinv x). split.
      * intros (k & r & Hk & Hin). exists k, r. split; [|done].
        apply lookup_delete_Some. split; [|done]. intros <-.
        destruct (Hsame _ _ Hk) as [->|Hfar]; [by destruct Hx|].
        destruct (Hkey _ _ Hk) as [Hfk Hne].
        apply Hfar. unfold overlaps. lia.
      * intros (k & r & Hk & Hin).
        apply lookup_delete_Some in Hk as [_ Hk]. by exists k, r.
Qed.

Lemma disciplined_keeps (fuel : nat) (cs : list call) (rc : RequestLock) :
  ranges_wf (rangeMap rc) → lock_invariant rc →
  disciplined fuel cs rc →
  ∀ n rc', run_calls fuel (take n cs) rc = Some rc' → lock_invariant rc'.
Proof.
  revert rc. induction cs as [|c cs IH]; intros rc Hwf Hinv Hdisc n rc'.
  - rewrite take_nil. by intros [= <-].
  - destruct n as [|n]; [by intros [= <-]|]. simpl.
    destruct Hdisc as [Hok Hrest].
    destruct (run_call fuel c rc) as [rc1|] eqn:Hcall; [|done].
    assert (ranges_wf (rangeMap rc1) ∧ lock_invariant rc1) as [Hwf1 Hinv1].
    { destruct c as [f t|f t]; destruct Hok as [Hle Hsame]; simpl in Hcall.
      - by eapply AddRange_keeps.
      - by eapply RemoveRange_keeps. }
    by apply IH.
Qed.

Lemma NewRequestLock_wf :
  ranges_wf (rangeMap NewRequestLock) ∧ lock_invariant NewRequestLock.
Proof.
  split; [split|]; simpl.
  - intros k r Hk. by rewrite lookup_empty in Hk.
  - intros k1 r1 k2 r2 x Hk. by rewrite lookup_empty in Hk.
  - intros x. simpl. rewrite lookup_empty. split; [by intros [? ?]|].
    intros (k & r & Hk & _). by rewrite lookup_empty in Hk.
Qed.

(** C1, as it is written, fails: two ranges added under the same [from],
    [AddRange(1, 10)] then [AddRange(1, 5)], leave [7] in [lookupMap]
    and no stored range that covers it. *)
Lemma lock_invariant_broken_by_shared_from :
  ¬ ∀ (fuel : nat) (cs : list call) (rc : RequestLock),
      run_calls fuel cs NewRequestLock = Some rc → lock_invariant rc.
Proof.
  intros Hclaim.
  destruct (AddRange_ends 20 1 10 NewRequestLock) as [rc1 H1];
    [reflexivity|unfold loop_fuel; simpl; lia|].
  destruct (AddRange_ends 20 1 5 rc1) as [rc2 H2];
    [reflexivity|unfold loop_fuel; simpl; lia|].
  specialize (Hclaim 20%nat [CallAdd 1 10; CallAdd 1 5] rc2).
  cbn [run_calls run_call] in Hclaim. rewrite H1, H2 in Hclaim.
  specialize (Hclaim eq_refl 7).
  rewrite (AddRange_lookup _ _ _ _ _ 7 H2) in Hclaim.
  rewrite decide_False in Hclaim by lia.
  rewrite (AddRange_lookup _ _ _ _ _ 7 H1) in Hclaim.
  rewrite decide_True in Hclaim by lia.
  destruct Hclaim as [Hcov _].
  destruct Hcov as (k & r & Hk & Hin); [by eexists|].
  rewrite (AddRange_rangeMap _ _ _ _ _ H2) in Hk.
  rewrite (AddRange_rangeMap _ _ _ _ _ H1) in Hk.
  rewrite insert_insert_eq in Hk. simpl in Hk.
  destruct (decide (1 = k)) as [<-|Hne].
  - rewrite lookup_insert_eq in Hk. injection Hk as <-.
    unfold in_range in Hin. simpl in Hin. lia.
  - rewrite lookup_insert_ne, lookup_empty in Hk by done. done.
Qed.

(** C1, amended: for every sequence of [AddRange] and [RemoveRange]
    calls on a new lock in which each call has [from ≤ to] and meets
    only stored ranges that are its own range or share no identifier
    with it, the invariant holds after each call: [lookupMap] contains
    exactly the identifiers covered by the ranges of [rangeMap]. *)
Theorem lock_invariant_disciplined (fuel : nat) (cs : list call) :
  disciplined fuel cs NewRequestLock →
  ∀ n rc, run_calls fuel (take n cs) NewRequestLock = Some rc →
          lock_invariant rc.
Proof.
  destruct NewRequestLock_wf as [Hwf Hinv]. by apply disciplined_keeps.
Qed.

(** Two fetchers of the bundle [[100, 102]], the second arriving
    before the first is done. *)
Lemma lock_invariant_disciplined_witness :
  disciplined 4
    [CallAdd 100 102; CallAdd 100 102; CallRemove 100 102;
     CallRemove 100 102] NewRequestLock ∧
  ∀ n rc,
    run_calls 4
      (take n [CallAdd 100 102; CallAdd 100 102; CallRemove 100 102;
               CallRemove 100 102]) NewRequestLock = Some rc →
    lock_invariant rc.
Proof.
  set (cs := [CallAdd 100 102; CallAdd 100 102; CallRemove 100 102;
              CallRemove 100 102]).
  assert (disciplined 4 cs NewRequestLock) as Hdisc.
  { subst cs. cbn [disciplined call_ok run_call].
    destruct (AddRange 4 100 102 NewRequestLock) as [rc1|] eqn:H1;
      [|by (split; [split; [lia|]|]; [intros k r Hk|]; done)].
    split; [split; [lia|by intros k r Hk]|].
    pose proof (AddRange_rangeMap _ _ _ _ _ H1) as Hrm1. simpl in Hrm1.
    assert (same_or_apart rc1 100 102) as Hsame1.
    { intros k r. rewrite Hrm1. intros Hk.
      apply lookup_insert_Some in Hk as [[_ <-]|[_ Hk]]; [by left|done]. }
    split; [split; [lia|done]|].
    destruct (AddRange 4 100 102 rc1) as [rc2|] eqn:H2; [|done].
    pose proof (AddRange_rangeMap _ _ _ _ _ H2) as Hrm2.
    rewrite Hrm1, insert_insert_eq in Hrm2.
    assert (same_or_apart rc2 100 102) as Hsame2.
    { intros k r. rewrite Hrm2. intros Hk.
      apply lookup_insert_Some in Hk as [[_ <-]|[_ Hk]]; [by left|done]. }
    split; [split; [lia|done]|].
    destruct (RemoveRange 4 100 102 rc2) as [rc3|] eqn:H3; [|done].
    pose proof (RemoveRange_rangeMap _ _ _ _ _ H3) as Hrm3.
    rewrite Hrm2, delete_insert_eq, delete_empty in Hrm3.
    split; [split; [lia|]|].
    - intros k r. rewrite Hrm3. done.
    - by destruct (RemoveRange 4 100 102 rc3). }
  split; [exact Hdisc|].
  exact (lock_invariant_disciplined 4 cs Hdisc).
Defined.
End request_lock_invariant.

(** ** Bundle names *)

Section bundle_names.
Import Client.

Lemma Split_no_underscore (s : string) :
  has_underscore s = false → Go.Split s "_" = [s].
Proof.
  induction s as [|c s IH]; [done|]. simpl.
  destruct (Ascii.eqb c "_"); [done|]. simpl. by intros ->%IH.
Qed.

Lemma Split_app_underscore (s rest : string) :
  has_underscore s = false →
  Go.Split (s +:+ String "_" rest) "_" = s :: Go.Split rest "_".
Proof.
  induction s as [|c s IH]; [done|]. simpl.
  destruct (Ascii.eqb c "_"); [done|]. simpl. by intros ->%IH.
Qed.

Lemma digits_no_underscore (s : string) :
  all_digits s = true → has_underscore s = false.
Proof.
  induction s as [|c s IH]; [done|]. simpl.
  intros [Hc Hs]%andb_prop. rewrite (IH Hs), orb_false_r.
  destruct (Ascii.eqb_spec c "_") as [->|]; [done..].
Qed.

Lemma decimal_after_ge (s : string) (n : N) : n <= decimal_after s n.
Proof.
  revert n. induction s as [|c s IH]; intros n; simpl; [lia|].
  etrans; [|apply IH]. lia.
Qed.

Lemma MaxUint64_value : MaxUint64 = 18446744073709551615.
Proof. reflexivity. Qed.

Lemma cutoff_value : Go.cutoff = 1844674407370955162.
Proof. reflexivity. Qed.

Lemma digit_of_decimal (c : ascii) :
  is_decimal_digit c = true →
  Go.digit_of c = Some (N_of_ascii c - 48) ∧ N_of_ascii c - 48 < 10.
Proof.
  unfold is_decimal_digit, Go.digit_of. intros Hc. rewrite Hc.
  apply andb_prop in Hc as [H1 H2].
  apply N.leb_le in H1. apply N.leb_le in H2. split; [done|].
  revert H1 H2. generalize (N_of_ascii c). intros b. lia.
Qed.

(** The digit loop of [ParseUint] computes the value of a numeral that
    fits 64 bits. *)
Lemma parseDigits_decimal (s : string) (n : N) :
  all_digits s = true → decimal_after s n <= MaxUint64 →
  Go.parseDigits s n = inr (decimal_after s n).
Proof.
  revert n. induction s as [|c s IH]; intros n; [done|]. simpl.
  intros [Hc Hs]%andb_prop Hfit.
  destruct (digit_of_decimal c Hc) as [-> Hd].
  pose proof (decimal_after_ge s (10 * n + (N_of_ascii c - 48))) as Hge.
  set (d := N_of_ascii c - 48) in *.
  assert (10 * n + d <= MaxUint64) as Hn1 by lia.
  rewrite MaxUint64_value in Hn1.
  destruct (N.leb_spec 10 d) as [|_]; [lia|].
  destruct (N.leb_spec Go.cutoff n) as [Hcut|_].
  { rewrite cutoff_value in Hcut. lia. }
  change (2 ^ 64) with 18446744073709551616.
  rewrite (N.mod_small (n * 10)) by lia.
  rewrite (N.mod_small (n * 10 + d)) by lia.
  destruct (N.ltb_spec (n * 10 + d) (n * 10)) as [|_]; [lia|].
  destruct (N.ltb_spec MaxUint64 (n * 10 + d)) as [Hover|_].
  { rewrite MaxUint64_value in Hover. lia. }
  simpl. replace (n * 10 + d) with (10 * n + d) by lia. by apply IH.
Qed.

Lemma ParseUint_decimal (s : string) :
  is_decimal s → decimal_value s <= MaxUint64 →
  Go.ParseUint s = inr (decimal_value s).
Proof.
  intros [Hne Hdig] Hfit. unfold Go.ParseUint.
  destruct s as [|c s]; [done|].
  by rewrite parseDigits_decimal.
Qed.

Lemma Split_bundle_name (prefix start end_ : string) :
  has_underscore prefix = false → all_digits start = true →
  all_digits end_ = true →
  Go.Split (bundle_name prefix start end_) "_"
  = [prefix; String "s" start; String "e" end_].
Proof.
  intros Hp Hs He. unfold bundle_name.
  change (prefix +:+ "_s" +:+ start +:+ "_e" +:+ end_)
    with (prefix +:+ String "_" (String "s" start +:+ String "_" (String "e" end_))).
  rewrite Split_app_underscore by done.
  rewrite Split_app_underscore by (simpl; by apply digits_no_underscore).
  rewrite Split_no_underscore by (simpl; by apply digits_no_underscore).
  done.
Qed.

(** C7, as it is written, fails: a prefix that itself contains [_]
    moves the two numerals away from the places the code reads,
    [parts[1]] and [parts[2]]. *)
Lemma GetBundleBlocksRange_prefix_with_underscore :
  ¬ ∀ prefix start end_ : string,
      is_decimal start → is_decimal end_ →
      GetBundleBlocksRange (delivers (bundle_name prefix start end_))
      = Return (decimal_value start, decimal_value end_, None).
Proof.
  intros Hclaim.
  specialize (Hclaim "my_archive" "1000" "1999").
  assert (is_decimal "1000" ∧ is_decimal "1999") as [Hs He] by done.
  specialize (Hclaim Hs He). vm_compute in Hclaim. discriminate Hclaim.
Qed.

(** What the code returns there, and for a numeral beyond 64 bits. *)
Lemma GetBundleBlocksRange_prefix_with_underscore_result :
  GetBundleBlocksRange (delivers "my_archive_s1000_e1999")
  = Return (0, 0, Some (strconv_NumError "ParseUint" "rchive" ErrSyntax)).
Proof. reflexivity. Qed.

Lemma GetBundleBlocksRange_numeral_too_large :
  GetBundleBlocksRange (delivers "archive_s1000_e18446744073709551616")
  = Return (0, 0, Some (strconv_NumError "ParseUint"
                          "18446744073709551616" ErrRange)).
Proof. vm_compute. reflexivity. Qed.

(** C7, amended: for the name ["archive_s1000_e1999"] the parse yields
    1000 and 1999; in general, for a name [<prefix>_s<start>_e<end>]
    whose prefix contains no [_] and whose [start] and [end] are decimal
    numerals of values below [2^64], [GetBundleBlocksRange] returns
    those two values and no error. *)
Theorem GetBundleBlocksRange_well_formed (prefix start end_ : string) :
  has_underscore prefix = false →
  is_decimal start → is_decimal end_ →
  decimal_value start <= MaxUint64 → decimal_value end_ <= MaxUint64 →
  GetBundleBlocksRange (delivers (bundle_name prefix start end_))
  = Return (decimal_value start, decimal_value end_, None).
Proof.
  intros Hp Hs He Hfs Hfe. unfold GetBundleBlocksRange, delivers. simpl.
  unfold parseBundleName.
  rewrite Split_bundle_name by (done || apply Hs || apply He). simpl.
  rewrite (ParseUint_decimal start Hs Hfs).
  by rewrite (ParseUint_decimal end_ He Hfe).
Qed.

Lemma GetBundleBlocksRange_well_formed_witness :
  GetBundleBlocksRange (delivers "archive_s1000_e1999")
  = Return (1000, 1999, None).
Proof.
  assert (is_decimal "1000" ∧ is_decimal "1999") as [Hs He]
    by (split; split; [discriminate|reflexivity|discriminate|reflexivity]).
  assert (decimal_value "1000" <= MaxUint64
          ∧ decimal_value "1999" <= MaxUint64) as [Hfs Hfe]
    by (split; vm_compute; discriminate).
  exact (GetBundleBlocksRange_well_formed "archive" "1000" "1999"
           eq_refl Hs He Hfs Hfe).
Defined.

(** C2: a bundle name without its [_e] segment makes
    [GetBundleBlocksRange] panic at [parts[2]]; so does a name without
    any [_], at [parts[1]], and a name with an empty segment, at
    [[1:]]. *)
Theorem GetBundleBlocksRange_malformed_panics :
  GetBundleBlocksRange (delivers "archive_s1000")
  = Panic "index out of range" ∧
  GetBundleBlocksRange (delivers "archive") = Panic "index out of range" ∧
  GetBundleBlocksRange (delivers "archive__e1999")
  = Panic "slice bounds out of range [1:0]".
Proof. repeat split. Qed.

(** The malformed names the code does answer with an error: those with
    three parts or more, the second and third not empty. *)
Lemma parseBundleName_three_parts (bundleName p0 p1 p2 : string)
    (c1 c2 : ascii) (rest : list string) :
  Go.Split bundleName "_" = p0 :: String c1 p1 :: String c2 p2 :: rest →
  (∃ err, parseBundleName bundleName = Return (0, 0, Some err)) ∨
  (∃ startSlot endSlot,
      parseBundleName bundleName = Return (startSlot, endSlot, None)).
Proof.
  intros Hparts. unfold parseBundleName. rewrite Hparts. simpl.
  destruct (Go.ParseUint p1) as [err|startSlot]; [left; by eexists|].
  destruct (Go.ParseUint p2) as [err|endSlot]; [left; by eexists|].
  right. by eexists _, _.
Qed.

Example GetBundleBlocksRange_bad_digits :
  GetBundleBlocksRange (delivers "archive_sXYZ_e1999")
  = Return (0, 0, Some (strconv_NumError "ParseUint" "XYZ" ErrSyntax)).
Proof. reflexivity. Qed.
End bundle_names.

(** ** The caches *)

Section cache_facts.
Context {K V : Type} `{EqDecision K}.

Lemma assoc_remove_ne (k k' : K) (l : list (K * V)) :
  k' ≠ k → Cache.assoc k' (Cache.remove k l) = Cache.assoc k' l.
Proof.
  intros Hne. induction l as [|[k0 v0] l IH]; [done|]. simpl.
  destruct (decide (k0 = k)) as [->|Hk0]; simpl.
  - by rewrite decide_False.
  - by rewrite IH.
Qed.

(** [Get] returns what [peek] sees. *)
Lemma Get_peek (c : Cache.t K V) (k : K) : (Cache.Get c k).1 = Cache.peek c k.
Proof. unfold Cache.Get, Cache.peek. by destruct (Cache.assoc k _). Qed.

(** [Get] changes no binding. *)
Lemma peek_Get (c : Cache.t K V) (k k' : K) :
  Cache.peek (Cache.Get c k).2 k' = Cache.peek c k'.
Proof.
  unfold Cache.Get, Cache.peek.
  destruct (Cache.assoc k (Cache.entries c)) as [v|] eqn:Hk; [|done]. simpl.
  destruct (decide (k = k')) as [<-|Hne]; [done|].
  by apply assoc_remove_ne.
Qed.
End cache_facts.

(** ** The service *)

Section service_facts.
Import Service.
Context `{Chain} (w : World).

Lemma cachedBlock_same (number : N) (c : BlockArchiverService) :
  same_contents c (cachedBlock number c).2.
Proof.
  unfold cachedBlock, same_contents.
  pose proof (peek_Get (hashCache c) number) as Hh.
  destruct (Cache.Get (hashCache c) number) as [[hash|] hc]; simpl in *.
  - pose proof (peek_Get (bodyCache c) hash) as Hb.
    pose proof (peek_Get (headerCache c) hash) as Hd.
    destruct (Cache.Get (bodyCache c) hash) as [body bc].
    destruct (Cache.Get (headerCache c) hash) as [header hdc].
    simpl in *. by destruct body, header.
  - done.
Qed.

(** The check succeeds exactly on a full triplet. *)
Lemma cachedBlock_Some (number : N) (c : BlockArchiverService)
    (body : ptr Body) (header : ptr Header) :
  (cachedBlock number c).1 = Some (body, header) ↔
  fully_cached c number body header.
Proof.
  unfold cachedBlock, fully_cached.
  pose proof (Get_peek (hashCache c) number) as Hh.
  destruct (Cache.Get (hashCache c) number) as [[hash|] hc]; simpl in *.
  - pose proof (Get_peek (bodyCache c) hash) as Hb.
    pose proof (Get_peek (headerCache c) hash) as Hd.
    destruct (Cache.Get (bodyCache c) hash) as [b bc].
    destruct (Cache.Get (headerCache c) hash) as [h hdc].
    simpl in *. split.
    + destruct b, h; simpl; try done. intros [= <- <-]. by exists hash.
    + intros (hash' & Hh' & Hb' & Hd').
      assert (hash' = hash) as -> by congruence.
      rewrite <- Hb in Hb'. rewrite <- Hd in Hd'. by rewrite Hb', Hd'.
  - split; [done|]. intros (hash' & Hh' & _). congruence.
Qed.

Lemma cachedBlock_None (number : N) (c : BlockArchiverService) :
  (cachedBlock number c).1 = None ↔ cache_miss c number.
Proof.
  unfold cache_miss. split.
  - intros Hnone body header Hfull%cachedBlock_Some. congruence.
  - intros Hmiss. destruct (cachedBlock number c).1 as [[body header]|] eqn:Hc;
      [|done].
    apply cachedBlock_Some in Hc. by destruct (Hmiss body header).
Qed.

(** The wait loop, from any number of rounds left: it sleeps [k] times,
    misses in each of the first [k] rounds, and either hits in round [k]
    or has used up its rounds. *)
Lemma waitLoop_rounds (remaining : nat) (number : N)
    (c : BlockArchiverService) (log : list event) :
  ∃ (k : nat) (r : Result) (c' : BlockArchiverService),
    waitLoop w remaining number c log
    = (r, c', log ++ replicate k (EvSleep GetBlockRetryInterval))
    ∧ (k ≤ remaining)%nat
    ∧ (∀ j, (j < k)%nat → cache_miss (atRound w j number c) number)
    ∧ ((k < remaining)%nat
       ∧ (∃ body header,
             fully_cached (atRound w k number c) number body header
             ∧ r = (body, header, None))
       ∨ k = remaining
         ∧ r = (None, None, Some (errors_New "block not found"))).
Proof.
  revert c log. induction remaining as [|remaining IH]; intros c log.
  - exists 0%nat, (None, None, Some (errors_New "block not found")), c.
    simpl. rewrite app_nil_r. repeat split; [lia..|by right].
  - simpl. destruct (cachedBlock number c) as [[[body header]|] c1] eqn:Hc.
    + exists 0%nat, (body, header, None), c1. simpl. rewrite app_nil_r.
      repeat split; [lia..|]. left. split; [lia|].
      exists body, header. split; [|done].
      apply cachedBlock_Some. by rewrite Hc.
    + destruct (IH (whileAsleep w c1)
                  (log ++ [EvSleep GetBlockRetryInterval]))
        as (k & r & c' & Hrun & Hk & Hmiss & Hend).
      assert (∀ j, atRound w j number (whileAsleep w c1)
                   = atRound w (S j) number c) as Hshift.
      { induction j as [|j IHj]; simpl; [by rewrite Hc|by rewrite IHj]. }
      exists (S k), r, c'. split; [|split; [lia|split]].
      * rewrite Hrun. by rewrite <- app_assoc.
      * intros [|j] Hj.
        -- simpl. apply cachedBlock_None. by rewrite Hc.
        -- rewrite <- Hshift. apply Hmiss. lia.
      * rewrite <- Hshift.
        destruct Hend as [[Hlt Hhit]|[-> Hr]]; [left|right]; by (split; [lia|]).
Qed.
End service_facts.

Section service_claims.
Import Service.
Context `{Chain} (w : World).

(** C8: when hash, body and header of [number] are all cached,
    [GetBlockByNumber(number)] returns that body and header and no error,
    with no operation on the lock and no remote call (the log and the
    lock are as before); when any of the three is missing, the call is
    the fetch-or-wait path [getBlockByNumber] on the same contents. *)
Theorem GetBlockByNumber_cache_check (fuel : nat) (number : N)
    (c : BlockArchiverService) (log : list event) :
  (∀ body header, fully_cached c number body header →
     ∃ c', GetBlockByNumber w fuel number c log
           = Some (Return (body, header, None), c', log)
           ∧ same_contents c c') ∧
  (cache_miss c number →
     ∃ c', GetBlockByNumber w fuel number c log
           = getBlockByNumber w fuel number c' log
           ∧ same_contents c c').
Proof.
  unfold GetBlockByNumber.
  pose proof (cachedBlock_same number c) as Hsame.
  split.
  - intros body header Hfull%cachedBlock_Some.
    destruct (cachedBlock number c) as [found c']. simpl in *. subst found.
    by exists c'.
  - intros Hmiss%cachedBlock_None.
    destruct (cachedBlock number c) as [found c']. simpl in *. subst found.
    by exists c'.
Qed.

(** C4: when [IsWithinAnyRange(number)] is true at entry,
    [getBlockByNumber] makes at most 3 cache checks, each failed one
    followed by a sleep of 2 seconds.  If round [k < 3] is the first to
    find hash, body and header cached, it returns that body and header and
    no error; if the 3 rounds fail it returns the error
    ["block not found"].  It does nothing else: no remote call. *)
Theorem getBlockByNumber_wait_path (fuel : nat) (number : N)
    (c : BlockArchiverService) (log : list event) :
  Lock.IsWithinAnyRange (requestLock c) number = true →
  ∃ (k : nat) (r : Result) (c' : BlockArchiverService) (new : list event),
    getBlockByNumber w fuel number c log = Some (Return r, c', log ++ new)
    ∧ new = EvIsWithinAnyRange number :: replicate k (EvSleep 2000000000)
    ∧ (∀ e, e ∈ new → is_remote_event e = false)
    ∧ (k ≤ 3)%nat
    ∧ (∀ j, (j < k)%nat → cache_miss (atRound w j number c) number)
    ∧ ((k < 3)%nat
       ∧ (∃ body header,
             fully_cached (atRound w k number c) number body header
             ∧ r = (body, header, None))
       ∨ k = 3%nat
         ∧ r = (None, None, Some (errors_New "block not found"))).
Proof.
  intros Hin. unfold getBlockByNumber. rewrite Hin.
  destruct (waitLoop_rounds w GetBlockRetry number c
              (log ++ [EvIsWithinAnyRange number]))
    as (k & r & c' & Hrun & Hk & Hmiss & Hend).
  rewrite Hrun.
  exists k, r, c', (EvIsWithinAnyRange number :: replicate k (EvSleep 2000000000)).
  split; [by rewrite <- app_assoc|].
  split; [done|]. split; [|done].
  intros e [->|[-> _]%elem_of_replicate]%elem_of_cons; done.
Qed.

(** C10: when [hash] misses the caches and the remote client answers
    [GetBlockByHash] with a nil block and no error, the service's
    [GetBlockByHash] returns nil, nil and no error. *)
Theorem GetBlockByHash_nil_block (fuel : nat) (hash : Hash)
    (c : BlockArchiverService) (log : list event) :
  (∀ body header, ¬ cached_by_hash c hash body header) →
  client_GetBlockByHash w hash = inr None →
  ∃ c', GetBlockByHash w fuel hash c log
        = Some (Return (None, None, None), c',
                log ++ [EvClientGetBlockByHash hash])
        ∧ same_contents c c'.
Proof.
  intros Hmiss Hnil. unfold GetBlockByHash.
  pose proof (Get_peek (bodyCache c) hash) as Hb.
  pose proof (Get_peek (headerCache c) hash) as Hd.
  pose proof (peek_Get (bodyCache c) hash) as Hb'.
  pose proof (peek_Get (headerCache c) hash) as Hd'.
  destruct (Cache.Get (bodyCache c) hash) as [body bc].
  destruct (Cache.Get (headerCache c) hash) as [header hdc].
  simpl in *. rewrite Hnil.
  destruct body as [b|], header as [h|];
    try (eexists; split; [reflexivity|by repeat split]).
  by destruct (Hmiss b h).
Qed.
End service_claims.

Section release.
Import Service.
Context `{Chain} (w : World).

Lemma fetchBundle_log (number : N) (c : BlockArchiverService)
    (log : list event) :
  snd (fetchBundle w number c log)
  = log ++ [EvGetBundleBlocksByBlockNum number].
Proof.
  unfold fetchBundle. destruct (client_GetBundleBlocksByBlockNum w number);
    [done|]. by destruct (populate _ _ _ _ _ _).
Qed.

(** C3: a call of [getBlockByNumber] that has run [AddRange(start, end)]
    runs [RemoveRange(start, end)] once, as its last step, whatever the
    outcome in between: a failed bundle fetch, a failed or panicking
    conversion, or success.  The lock it leaves has no range under
    [start] and no identifier of [[start, end]].  The call ends on the
    wait path and on a failed range request, and on the fetch path, given
    fuel for the two loops, when the range it is told ends below the
    largest [uint64]. *)
Theorem getBlockByNumber_releases (fuel : nat) (number : N)
    (c : BlockArchiverService) (log : list event) :
  ((∀ start end_,
      Lock.IsWithinAnyRange (requestLock c) number = false →
      Client.GetBundleBlocksRange (bundleNameExchange w number)
      = Return (start, end_, None) →
      end_ < MaxUint64 ∧ (Lock.loop_fuel start end_ ≤ fuel)%nat) →
   is_Some (getBlockByNumber w fuel number c log)) ∧
  (∀ out c' log',
     getBlockByNumber w fuel number c log = Some (out, c', log') →
     ∃ new, log' = log ++ new ∧
       ((∀ s e, (EvAddRange s e ∉ new) ∧ (EvRemoveRange s e ∉ new)) ∨
        (∃ start end_,
            new = [EvIsWithinAnyRange number; EvGetBundleBlocksRange number;
                   EvAddRange start end_;
                   EvGetBundleBlocksByBlockNum number;
                   EvRemoveRange start end_]
            ∧ Lock.rangeMap (requestLock c') !! start = None
            ∧ ∀ x, start <= x <= end_ →
                   Lock.IsWithinAnyRange (requestLock c') x = false))).
Proof.
  split.
  - intros Hfetch. unfold getBlockByNumber.
    destruct (Lock.IsWithinAnyRange (requestLock c) number).
    { destruct (waitLoop _ _ _ _ _) as [[r c1] log1]. by eexists. }
    destruct (Client.GetBundleBlocksRange _)
      as [[[start end_] [err|]]|msg]; [by eexists| |by eexists].
    destruct (Hfetch start end_) as [Hend Hfuel]; [done..|].
    destruct (AddRange_ends fuel start end_ (requestLock c) Hend Hfuel)
      as [rl ->].
    destruct (fetchBundle _ _ _ _) as [[out c1] log1].
    destruct (RemoveRange_ends fuel start end_ (requestLock c1) Hend Hfuel)
      as [rl' ->].
    by eexists.
  - intros out c' log'. unfold getBlockByNumber.
    destruct (Lock.IsWithinAnyRange (requestLock c) number) eqn:Hin.
    + destruct (waitLoop_rounds w GetBlockRetry number c
                  (log ++ [EvIsWithinAnyRange number]))
        as (k & r & c1 & Hrun & _).
      rewrite Hrun. intros [= <- <- <-].
      exists (EvIsWithinAnyRange number
              :: replicate k (EvSleep GetBlockRetryInterval)).
      split; [by rewrite <- app_assoc|]. left. intros s e.
      split; intros [?|[? _]%elem_of_replicate]%elem_of_cons; done.
    + destruct (Client.GetBundleBlocksRange _)
        as [[[start end_] [err|]]|msg].
      * intros [= <- <- <-]. eexists. split; [by rewrite <- app_assoc|].
        left. intros s e. split; intros Hel;
          repeat (apply elem_of_cons in Hel as [?|Hel]; [done|]);
          by apply elem_of_nil in Hel.
      * destruct (Lock.AddRange fuel start end_ (requestLock c))
          as [rl|]; [|done].
        pose proof (fetchBundle_log number (set_requestLock c rl)
                      (((log ++ [EvIsWithinAnyRange number])
                        ++ [EvGetBundleBlocksRange number])
                       ++ [EvAddRange start end_])) as Hlog.
        destruct (fetchBundle _ _ _ _) as [[out1 c1] log1]. simpl in Hlog.
        destruct (Lock.RemoveRange fuel start end_ (requestLock c1))
          as [rl'|] eqn:Hrem; [|done].
        intros [= <- <- <-]. eexists. split.
        { rewrite Hlog. rewrite <- !app_assoc. reflexivity. }
        right. exists start, end_. split; [done|]. simpl. split.
        -- rewrite (RemoveRange_rangeMap _ _ _ _ _ Hrem).
           apply lookup_delete_eq.
        -- intros x Hx. unfold Lock.IsWithinAnyRange.
           rewrite (RemoveRange_lookup _ _ _ _ _ x Hrem).
           by rewrite decide_True.
      * intros [= <- <- <-]. eexists. split; [by rewrite <- app_assoc|].
        left. intros s e. split; intros Hel;
          repeat (apply elem_of_cons in Hel as [?|Hel]; [done|]);
          by apply elem_of_nil in Hel.
Qed.
End release.

(** ** The service on the small chain *)

Section demo.
Import Service Demo.

(** A cached block is returned as it is; on an empty cache the lookup
    goes on to [getBlockByNumber]. *)
Lemma GetBlockByNumber_cache_check_witness :
  (∃ c', GetBlockByNumber failing_world 4 101 warm_service []
         = Some (Return (Some "body", Some "header", None), c', [])
         ∧ same_contents warm_service c') ∧
  (∃ c', GetBlockByNumber failing_world 4 101 empty_service []
         = getBlockByNumber failing_world 4 101 c' []
         ∧ same_contents empty_service c').
Proof.
  destruct (GetBlockByNumber_cache_check failing_world 4 101 warm_service [])
    as [Hhit _].
  destruct (GetBlockByNumber_cache_check failing_world 4 101 empty_service [])
    as [_ Hmiss].
  split.
  - apply Hhit. exists 1101. repeat split.
  - apply Hmiss. intros body header (hash & Hhash & _). discriminate Hhash.
Defined.

(** A fetcher that never fills the caches: three sleeps, then
    ["block not found"]. *)
Lemma getBlockByNumber_wait_path_witness :
  ∃ (k : nat) (r : Result) (c' : BlockArchiverService) (new : list event),
    getBlockByNumber failing_world 4 101 waiting_service []
    = Some (Return r, c', [] ++ new)
    ∧ new = EvIsWithinAnyRange 101 :: replicate k (EvSleep 2000000000)
    ∧ (∀ e, e ∈ new → is_remote_event e = false)
    ∧ (k ≤ 3)%nat
    ∧ (∀ j, (j < k)%nat →
            cache_miss (atRound failing_world j 101 waiting_service) 101)
    ∧ ((k < 3)%nat
       ∧ (∃ body header,
             fully_cached (atRound failing_world k 101 waiting_service) 101
               body header
             ∧ r = (body, header, None))
       ∨ k = 3%nat
         ∧ r = (None, None, Some (errors_New "block not found"))).
Proof.
  apply (getBlockByNumber_wait_path failing_world 4 101 waiting_service []).
  vm_compute. reflexivity.
Defined.

Example getBlockByNumber_wait_exhausted :
  ∃ c', getBlockByNumber failing_world 4 101 waiting_service []
        = Some (Return (None, None, Some (errors_New "block not found")), c',
                [EvIsWithinAnyRange 101; EvSleep 2000000000;
                 EvSleep 2000000000; EvSleep 2000000000]).
Proof. eexists. vm_compute. reflexivity. Qed.

Lemma GetBlockByHash_nil_block_witness :
  ∃ c', GetBlockByHash failing_world 4 1101 empty_service []
        = Some (Return (None, None, None), c',
                [] ++ [EvClientGetBlockByHash 1101])
        ∧ same_contents empty_service c'.
Proof.
  apply (GetBlockByHash_nil_block failing_world 4 1101 empty_service []).
  - intros body header [Hbody _]. discriminate Hbody.
  - reflexivity.
Defined.

(** A bundle fetch that fails: the error comes back and the lock is as
    empty as before. *)
Lemma getBlockByNumber_releases_witness :
  ∃ out c' log',
    getBlockByNumber failing_world 4 101 empty_service [] = Some (out, c', log')
    ∧ ∃ new, log' = [] ++ new ∧
        ((∀ s e, (EvAddRange s e ∉ new) ∧ (EvRemoveRange s e ∉ new)) ∨
         (∃ start end_,
             new = [EvIsWithinAnyRange 101; EvGetBundleBlocksRange 101;
                    EvAddRange start end_;
                    EvGetBundleBlocksByBlockNum 101;
                    EvRemoveRange start end_]
             ∧ Lock.rangeMap (requestLock c') !! start = None
             ∧ ∀ x, start <= x <= end_ →
                    Lock.IsWithinAnyRange (requestLock c') x = false)).
Proof.
  destruct (getBlockByNumber_releases failing_world 4 101 empty_service [])
    as [Hends Hrel].
  destruct Hends as [[[out c'] log'] Hrun].
  { intros start end_ _ Hrange. vm_compute in Hrange.
    injection Hrange as <- <-. split; [reflexivity|].
    unfold Lock.loop_fuel. simpl. lia. }
  exists out, c', log'. split; [exact Hrun|]. exact (Hrel _ _ _ Hrun).
Defined.

Example getBlockByNumber_failed_fetch :
  ∃ c', getBlockByNumber failing_world 4 101 empty_service []
        = Some (Return (None, None, Some (upstream_error "timeout")), c',
                [EvIsWithinAnyRange 101; EvGetBundleBlocksRange 101;
                 EvAddRange 100 102; EvGetBundleBlocksByBlockNum 101;
                 EvRemoveRange 100 102])
        ∧ requestLock c' = Lock.NewRequestLock.
Proof. eexists. split; vm_compute; reflexivity. Qed.
End demo.

(** * Further properties of the code *)

(** ** RequestLock: what the two maps do under each call *)

Section request_lock_more.
Import Lock.

(** Whether the loop ends within the fuel depends on the bounds alone,
    not on the body or the state. *)
Lemma forRange_ends_alike {T U : Type} (body : N → T → T)
    (body' : N → U → U) (fuel : nat) (i to : N) (s : T) (u : U) :
  is_Some (forRange fuel i to body s) → is_Some (forRange fuel i to body' u).
Proof.
  revert i s u. induction fuel as [|fuel IH]; intros i s u; simpl.
  - by intros [? ?].
  - destruct (i <=? to); [apply IH|by eexists].
Qed.

Lemma AddRange_RemoveRange_end_alike (fuel : nat) (from to : N)
    (rc rc' : RequestLock) :
  is_Some (AddRange fuel from to rc) ↔ is_Some (RemoveRange fuel from to rc').
Proof.
  unfold AddRange, RemoveRange. split; intros Hsome.
  - destruct (forRange_ends_alike (λ i lm, <[i := true]> lm)
                (λ i lm, delete i lm) fuel from to (lookupMap rc)
                (lookupMap rc')) as [lm ->]; [|by eexists].
    destruct (forRange _ _ _ _ (lookupMap rc)); [by eexists|].
    by destruct Hsome.
  - destruct (forRange_ends_alike (λ i lm, delete i lm)
                (λ i lm, <[i := true]> lm) fuel from to (lookupMap rc')
                (lookupMap rc)) as [lm ->]; [|by eexists].
    destruct (forRange _ _ _ _ (lookupMap rc')); [by eexists|].
    by destruct Hsome.
Qed.

Lemma AddRange_end_alike (fuel : nat) (from to : N) (rc rc' : RequestLock) :
  is_Some (AddRange fuel from to rc) → is_Some (AddRange fuel from to rc').
Proof.
  intros Hsome. apply (AddRange_RemoveRange_end_alike _ _ _ _ rc).
  by apply (AddRange_RemoveRange_end_alike _ _ _ rc rc).
Qed.

Lemma RequestLock_eq (rc rc' : RequestLock) :
  rangeMap rc = rangeMap rc' →
  (∀ x, lookupMap rc !! x = lookupMap rc' !! x) → rc = rc'.
Proof.
  destruct rc as [rm lm], rc' as [rm' lm']. simpl.
  intros -> Hlm. f_equal. by apply map_eq.
Qed.

(** [AddRange] and then [RemoveRange] of a range that was not held give
    the lock back as it was, both maps alike. *)
Lemma AddRange_RemoveRange_restores (fuel : nat) (from to : N)
    (rc rc1 rc2 : RequestLock) :
  unheld rc from to →
  AddRange fuel from to rc = Some rc1 →
  RemoveRange fuel from to rc1 = Some rc2 → rc2 = rc.
Proof.
  intros [Hkey Hfree] Hadd Hrem. apply RequestLock_eq.
  - rewrite (RemoveRange_rangeMap _ _ _ _ _ Hrem),
      (AddRange_rangeMap _ _ _ _ _ Hadd), delete_insert_eq.
    by apply delete_id.
  - intros x. rewrite (RemoveRange_lookup _ _ _ _ _ x Hrem).
    case_decide as Hx; [by rewrite Hfree|].
    rewrite (AddRange_lookup _ _ _ _ _ x Hadd). by rewrite decide_False.
Qed.

(** X1: once [RemoveRange(from, to)] has returned, [IsWithinAnyRange(x)]
    is false for every [x] in [[from, to]] and as before for every other
    [x], whatever was stored. *)
Theorem RemoveRange_IsWithinAnyRange (fuel : nat) (from to : N)
    (rc rc' : RequestLock) :
  RemoveRange fuel from to rc = Some rc' →
  (∀ x, from <= x <= to → IsWithinAnyRange rc' x = false) ∧
  (∀ x, ¬ from <= x <= to → IsWithinAnyRange rc' x = IsWithinAnyRange rc x).
Proof.
  intros Hrem. split; intros x Hx; unfold IsWithinAnyRange;
    rewrite (RemoveRange_lookup _ _ _ _ _ x Hrem); by case_decide.
Qed.

Lemma RemoveRange_IsWithinAnyRange_witness :
  ∃ rc rc',
    AddRange 5 10 12 NewRequestLock = Some rc ∧
    RemoveRange 3 11 12 rc = Some rc' ∧
    IsWithinAnyRange rc' 10 = true ∧
    IsWithinAnyRange rc' 11 = false ∧
    IsWithinAnyRange rc' 12 = false.
Proof.
  destruct (AddRange_ends 5 10 12 NewRequestLock) as [rc Hadd];
    [reflexivity|unfold loop_fuel; simpl; lia|].
  destruct (RemoveRange_ends 3 11 12 rc) as [rc' Hrem];
    [reflexivity|unfold loop_fuel; simpl; lia|].
  exists rc, rc'. split; [exact Hadd|]. split; [exact Hrem|].
  destruct (RemoveRange_IsWithinAnyRange 3 11 12 rc rc' Hrem) as [Hin Hout].
  split; [|split; apply Hin; lia].
  rewrite Hout by lia. unfold IsWithinAnyRange.
  rewrite (AddRange_lookup _ _ _ _ _ 10 Hadd). reflexivity.
Defined.

Lemma unheld_new (from to : N) : unheld NewRequestLock from to.
Proof. split; [|intros x _]; simpl; apply lookup_empty. Qed.

(** X2: [AddRange] and [RemoveRange] are idempotent: a second call with
    the same range returns and leaves both maps as the first call left
    them. *)
Theorem AddRange_RemoveRange_idempotent (fuel : nat) (from to : N)
    (rc rc1 : RequestLock) :
  (AddRange fuel from to rc = Some rc1 →
   AddRange fuel from to rc1 = Some rc1) ∧
  (RemoveRange fuel from to rc = Some rc1 →
   RemoveRange fuel from to rc1 = Some rc1).
Proof.
  split.
  - intros Hadd.
    destruct (AddRange_end_alike fuel from to rc rc1) as [rc2 H2];
      [by eexists|].
    rewrite H2. f_equal. apply RequestLock_eq.
    + rewrite (AddRange_rangeMap _ _ _ _ _ H2),
        (AddRange_rangeMap _ _ _ _ _ Hadd). apply insert_insert_eq.
    + intros x. rewrite (AddRange_lookup _ _ _ _ _ x H2).
      case_decide as Hx; [|done].
      rewrite (AddRange_lookup _ _ _ _ _ x Hadd). by rewrite decide_True.
  - intros Hrem.
    assert (is_Some (RemoveRange fuel from to rc1)) as [rc2 H2].
    { apply (AddRange_RemoveRange_end_alike _ _ _ rc).
      apply (AddRange_RemoveRange_end_alike _ _ _ rc rc). by eexists. }
    rewrite H2. f_equal. apply RequestLock_eq.
    + rewrite (RemoveRange_rangeMap _ _ _ _ _ H2),
        (RemoveRange_rangeMap _ _ _ _ _ Hrem).
      apply delete_id, lookup_delete_eq.
    + intros x. rewrite (RemoveRange_lookup _ _ _ _ _ x H2).
      case_decide as Hx; [|done].
      rewrite (RemoveRange_lookup _ _ _ _ _ x Hrem). by rewrite decide_True.
Qed.

Lemma AddRange_RemoveRange_idempotent_witness :
  ∃ rc1 rc2,
    AddRange 4 100 102 NewRequestLock = Some rc1 ∧
    AddRange 4 100 102 rc1 = Some rc1 ∧
    RemoveRange 4 100 101 rc1 = Some rc2 ∧
    RemoveRange 4 100 101 rc2 = Some rc2.
Proof.
  destruct (AddRange_ends 4 100 102 NewRequestLock) as [rc1 H1];
    [reflexivity|unfold loop_fuel; simpl; lia|].
  destruct (RemoveRange_ends 4 100 101 rc1) as [rc2 H2];
    [reflexivity|unfold loop_fuel; simpl; lia|].
  exists rc1, rc2. split; [exact H1|].
  split; [exact (proj1 (AddRange_RemoveRange_idempotent 4 100 102
                          NewRequestLock rc1) H1)|].
  split; [exact H2|].
  exact (proj2 (AddRange_RemoveRange_idempotent 4 100 101 rc1 rc2) H2).
Defined.

(** X3: on a lock that holds nothing of [[from, to]], [AddRange(from, to)]
    followed by [RemoveRange(from, to)] gives back the very same lock,
    [rangeMap] and [lookupMap] alike; both calls return when [to] is below
    the largest [uint64]. *)
Theorem AddRange_RemoveRange_round_trip (from to : N) (rc : RequestLock) :
  unheld rc from to →
  (to < MaxUint64 →
   ∃ rc1, AddRange (loop_fuel from to) from to rc = Some rc1 ∧
          RemoveRange (loop_fuel from to) from to rc1 = Some rc) ∧
  ∀ fuel rc1 rc2,
    AddRange fuel from to rc = Some rc1 →
    RemoveRange fuel from to rc1 = Some rc2 → rc2 = rc.
Proof.
  intros Hfree. split.
  - intros Hto.
    destruct (AddRange_ends (loop_fuel from to) from to rc) as [rc1 H1];
      [done..|].
    destruct (RemoveRange_ends (loop_fuel from to) from to rc1) as [rc2 H2];
      [done..|].
    exists rc1. split; [done|]. rewrite H2. f_equal.
    by eapply AddRange_RemoveRange_restores.
  - intros fuel rc1 rc2. by apply AddRange_RemoveRange_restores.
Qed.

Lemma AddRange_RemoveRange_round_trip_witness :
  ∃ rc0 rc1,
    AddRange 3 7 8 NewRequestLock = Some rc0 ∧
    AddRange (loop_fuel 100 102) 100 102 rc0 = Some rc1 ∧
    RemoveRange (loop_fuel 100 102) 100 102 rc1 = Some rc0.
Proof.
  destruct (AddRange_ends 3 7 8 NewRequestLock) as [rc0 H0];
    [reflexivity|unfold loop_fuel; simpl; lia|].
  assert (unheld rc0 100 102) as Hfree.
  { split.
    - rewrite (AddRange_rangeMap _ _ _ _ _ H0). simpl.
      rewrite lookup_insert_ne by done. apply lookup_empty.
    - intros x Hx. rewrite (AddRange_lookup _ _ _ _ _ x H0).
      rewrite decide_False by lia. apply lookup_empty. }
  destruct (AddRange_RemoveRange_round_trip 100 102 rc0 Hfree) as [Hends _].
  destruct Hends as (rc1 & H1 & H2); [reflexivity|].
  exists rc0, rc1. split; [exact H0|]. split; [exact H1|exact H2].
Defined.

(** X4: the lock does not count holders.  After [AddRange(f1, t1)],
    [AddRange(f2, t2)] with another [from] and [RemoveRange(f1, t1)], the
    range [[f2, t2]] is still stored, yet [IsWithinAnyRange] is false on
    all of [[f1, t1]], the identifiers of [[f2, t2]] among them. *)
Theorem RemoveRange_clears_shared_identifiers (fuel : nat) (f1 t1 f2 t2 : N)
    (rc rc1 rc2 rc3 : RequestLock) :
  f1 ≠ f2 →
  AddRange fuel f1 t1 rc = Some rc1 →
  AddRange fuel f2 t2 rc1 = Some rc2 →
  RemoveRange fuel f1 t1 rc2 = Some rc3 →
  rangeMap rc3 !! f2 = Some (mkRange f2 t2) ∧
  ∀ x, f1 <= x <= t1 → IsWithinAnyRange rc3 x = false.
Proof.
  intros Hne H1 H2 H3. split.
  - rewrite (RemoveRange_rangeMap _ _ _ _ _ H3),
      (AddRange_rangeMap _ _ _ _ _ H2).
    rewrite lookup_delete_ne by done. apply lookup_insert_eq.
  - intros x Hx. unfold IsWithinAnyRange.
    rewrite (RemoveRange_lookup _ _ _ _ _ x H3). by rewrite decide_True.
Qed.

(** Bundles [[100, 104]] and [[103, 106]]: after the first is released,
    103 reads as free although the second still covers it. *)
Lemma RemoveRange_clears_shared_identifiers_witness :
  ∃ rc3,
    run_calls 6 [CallAdd 100 104; CallAdd 103 106; CallRemove 100 104]
      NewRequestLock = Some rc3 ∧
    rangeMap rc3 !! 103 = Some (mkRange 103 106) ∧
    IsWithinAnyRange rc3 103 = false ∧
    ¬ lock_invariant rc3.
Proof.
  destruct (AddRange_ends 6 100 104 NewRequestLock) as [rc1 H1];
    [reflexivity|unfold loop_fuel; simpl; lia|].
  destruct (AddRange_ends 6 103 106 rc1) as [rc2 H2];
    [reflexivity|unfold loop_fuel; simpl; lia|].
  destruct (RemoveRange_ends 6 100 104 rc2) as [rc3 H3];
    [reflexivity|unfold loop_fuel; simpl; lia|].
  assert (100 ≠ 103) as Hne by discriminate.
  destruct (RemoveRange_clears_shared_identifiers 6 100 104 103 106
              NewRequestLock rc1 rc2 rc3 Hne H1 H2 H3) as [Hkept Hfree].
  assert (IsWithinAnyRange rc3 103 = false) as H103 by (apply Hfree; lia).
  exists rc3. cbn [run_calls run_call]. rewrite H1, H2, H3.
  split; [reflexivity|]. split; [exact Hkept|]. split; [exact H103|].
  intros Hinv. destruct (Hinv 103) as [_ Hcov].
  apply IsWithinAnyRange_true in Hcov; [congruence|].
  exists 103, (mkRange 103 106). split; [exact Hkept|].
  unfold in_range. simpl. lia.
Defined.

(** X5: a range with [to < from] protects nothing.  Both calls return at
    once; [AddRange] stores the range under [from] and [RemoveRange]
    deletes what is stored there, and neither changes
    [IsWithinAnyRange(x)] for any [x]. *)
Theorem empty_range_marks_nothing (fuel : nat) (from to : N)
    (rc : RequestLock) :
  to < from →
  ∃ rc1 rc2,
    AddRange (S fuel) from to rc = Some rc1 ∧
    RemoveRange (S fuel) from to rc = Some rc2 ∧
    rangeMap rc1 !! from = Some (mkRange from to) ∧
    rangeMap rc2 !! from = None ∧
    ∀ x, IsWithinAnyRange rc1 x = IsWithinAnyRange rc x ∧
         IsWithinAnyRange rc2 x = IsWithinAnyRange rc x.
Proof.
  intros Hlt.
  assert (is_Some (forRange (S fuel) from to (λ i lm, <[i := true]> lm)
                     (lookupMap rc))) as Hloop.
  { simpl. destruct (N.leb_spec from to); [lia|by eexists]. }
  assert (is_Some (AddRange (S fuel) from to rc)) as [rc1 H1].
  { unfold AddRange. destruct Hloop as [lm ->]. by eexists. }
  assert (is_Some (RemoveRange (S fuel) from to rc)) as [rc2 H2].
  { apply (AddRange_RemoveRange_end_alike _ _ _ rc). by eexists. }
  exists rc1, rc2. repeat split; try done.
  - rewrite (AddRange_rangeMap _ _ _ _ _ H1). apply lookup_insert_eq.
  - rewrite (RemoveRange_rangeMap _ _ _ _ _ H2). apply lookup_delete_eq.
  - unfold IsWithinAnyRange. rewrite (AddRange_lookup _ _ _ _ _ x H1).
    by rewrite decide_False by lia.
  - unfold IsWithinAnyRange. rewrite (RemoveRange_lookup _ _ _ _ _ x H2).
    by rewrite decide_False by lia.
Qed.

Lemma empty_range_marks_nothing_witness :
  ∃ rc1 rc2,
    AddRange 1 5 3 NewRequestLock = Some rc1 ∧
    RemoveRange 1 5 3 NewRequestLock = Some rc2 ∧
    rangeMap rc1 !! 5 = Some (mkRange 5 3) ∧
    rangeMap rc2 !! 5 = None ∧
    ∀ x, IsWithinAnyRange rc1 x = IsWithinAnyRange NewRequestLock x ∧
         IsWithinAnyRange rc2 x = IsWithinAnyRange NewRequestLock x.
Proof.
  apply (empty_range_marks_nothing 0 5 3 NewRequestLock). reflexivity.
Defined.

(** X6: two [AddRange] calls with different [from] commute: either order
    leaves the same [rangeMap] and the same [lookupMap]. *)
Theorem AddRange_commute (fuel : nat) (f1 t1 f2 t2 : N)
    (rc rc1 rc2 rc1' rc2' : RequestLock) :
  f1 ≠ f2 →
  AddRange fuel f1 t1 rc = Some rc1 → AddRange fuel f2 t2 rc1 = Some rc2 →
  AddRange fuel f2 t2 rc = Some rc1' → AddRange fuel f1 t1 rc1' = Some rc2' →
  rc2 = rc2'.
Proof.
  intros Hne H1 H2 H1' H2'. apply RequestLock_eq.
  - rewrite (AddRange_rangeMap _ _ _ _ _ H2), (AddRange_rangeMap _ _ _ _ _ H1),
      (AddRange_rangeMap _ _ _ _ _ H2'), (AddRange_rangeMap _ _ _ _ _ H1').
    by apply insert_insert_ne.
  - intros x.
    rewrite (AddRange_lookup _ _ _ _ _ x H2), (AddRange_lookup _ _ _ _ _ x H1),
      (AddRange_lookup _ _ _ _ _ x H2'), (AddRange_lookup _ _ _ _ _ x H1').
    by repeat case_decide.
Qed.

Lemma AddRange_commute_witness :
  ∃ rc1 rc2 rc1',
    AddRange 5 100 102 NewRequestLock = Some rc1 ∧
    AddRange 5 200 203 rc1 = Some rc2 ∧
    AddRange 5 200 203 NewRequestLock = Some rc1' ∧
    AddRange 5 100 102 rc1' = Some rc2.
Proof.
  destruct (AddRange_ends 5 100 102 NewRequestLock) as [rc1 H1];
    [reflexivity|unfold loop_fuel; simpl; lia|].
  destruct (AddRange_ends 5 200 203 rc1) as [rc2 H2];
    [reflexivity|unfold loop_fuel; simpl; lia|].
  destruct (AddRange_ends 5 200 203 NewRequestLock) as [rc1' H1'];
    [reflexivity|unfold loop_fuel; simpl; lia|].
  destruct (AddRange_ends 5 100 102 rc1') as [rc2' H2'];
    [reflexivity|unfold loop_fuel; simpl; lia|].
  assert (100 ≠ 200) as Hne by discriminate.
  exists rc1, rc2, rc1'. repeat split; try assumption.
  by rewrite (AddRange_commute 5 100 102 200 203 NewRequestLock
                rc1 rc2 rc1' rc2' Hne H1 H2 H1' H2').
Defined.

(** With too little fuel the loop over a non-empty range has not ended. *)
Lemma forRange_short {T : Type} (body : N → T → T) (fuel : nat) (i to : N)
    (s : T) :
  i <= to → (fuel < loop_fuel i to)%nat → forRange fuel i to body s = None.
Proof.
  destruct (N.le_gt_cases MaxUint64 to) as [Hbig|Hsmall].
  - intros Hle _. destruct fuel as [|fuel]; [done|]. simpl.
    destruct (N.leb_spec i to); [|lia].
    apply forRange_never_ends; [done|apply uint64_succ_bounded].
  - unfold loop_fuel. revert i s.
    induction fuel as [|fuel IH]; intros i s Hle Hfuel; [done|]. simpl.
    destruct (N.leb_spec i to); [|lia].
    rewrite uint64_succ_below by lia.
    destruct (decide (i = to)) as [->|Hne].
    + destruct fuel as [|fuel]; [done|lia].
    + apply IH; lia.
Qed.

(** X7: the work of [AddRange] and [RemoveRange] grows with the range.
    For [from ≤ to] below the largest [uint64], each returns exactly when
    it is given [to - from + 2] loop tests: one per identifier and the
    failing one. *)
Theorem AddRange_RemoveRange_steps (fuel : nat) (from to : N)
    (rc : RequestLock) :
  from <= to → to < MaxUint64 →
  (is_Some (AddRange fuel from to rc)
   ↔ (N.to_nat (to - from) + 2 ≤ fuel)%nat) ∧
  (is_Some (RemoveRange fuel from to rc)
   ↔ (N.to_nat (to - from) + 2 ≤ fuel)%nat).
Proof.
  intros Hle Hto.
  assert (is_Some (AddRange fuel from to rc)
          ↔ (N.to_nat (to - from) + 2 ≤ fuel)%nat) as Hadd.
  { split.
    - intros Hsome.
      destruct (decide (N.to_nat (to - from) + 2 ≤ fuel)%nat) as [|Hshort];
        [done|].
      unfold AddRange in Hsome.
      rewrite forRange_short in Hsome; [by destruct Hsome|done|].
      unfold loop_fuel. lia.
    - intros Hfuel. apply AddRange_ends; [done|]. unfold loop_fuel. lia. }
  split; [done|]. rewrite <- Hadd. symmetry.
  apply AddRange_RemoveRange_end_alike.
Qed.

Lemma AddRange_RemoveRange_steps_witness :
  (is_Some (AddRange 4 100 102 NewRequestLock) ∧
   is_Some (RemoveRange 4 100 102 NewRequestLock)) ∧
  (¬ is_Some (AddRange 3 100 102 NewRequestLock) ∧
   ¬ is_Some (RemoveRange 3 100 102 NewRequestLock)).
Proof.
  assert (100 <= 102) as Hle by lia.
  assert (102 < MaxUint64) as Hto by reflexivity.
  destruct (AddRange_RemoveRange_steps 4 100 102 NewRequestLock Hle Hto)
    as [Ha4 Hr4].
  destruct (AddRange_RemoveRange_steps 3 100 102 NewRequestLock Hle Hto)
    as [Ha3 Hr3].
  split; split.
  - apply Ha4. simpl. lia.
  - apply Hr4. simpl. lia.
  - intros Hsome%Ha3. simpl in Hsome. lia.
  - intros Hsome%Hr3. simpl in Hsome. lia.
Defined.

(** X8: [RemoveRange] of a range that is not held changes nothing. *)
Theorem RemoveRange_unheld (fuel : nat) (from to : N) (rc rc' : RequestLock) :
  unheld rc from to → RemoveRange fuel from to rc = Some rc' → rc' = rc.
Proof.
  intros [Hkey Hfree] Hrem. apply RequestLock_eq.
  - rewrite (RemoveRange_rangeMap _ _ _ _ _ Hrem). by apply delete_id.
  - intros x. rewrite (RemoveRange_lookup _ _ _ _ _ x Hrem).
    case_decide; [by rewrite Hfree|done].
Qed.

Lemma RemoveRange_unheld_witness :
  RemoveRange 4 100 102 NewRequestLock = Some NewRequestLock.
Proof.
  destruct (RemoveRange_ends 4 100 102 NewRequestLock) as [rc' Hrem];
    [reflexivity|unfold loop_fuel; simpl; lia|].
  rewrite Hrem. f_equal.
  exact (RemoveRange_unheld 4 100 102 NewRequestLock rc'
           (unheld_new 100 102) Hrem).
Defined.
End request_lock_more.

(** ** Bundle names: what the parse accepts, refuses and panics on *)

Section bundle_names_more.
Import Client.

Lemma digit_of_below_10 (c : ascii) (d : N) :
  Go.digit_of c = Some d → d < 10 →
  is_decimal_digit c = true ∧ d = N_of_ascii c - 48.
Proof.
  unfold Go.digit_of, is_decimal_digit.
  destruct ((48 <=? N_of_ascii c) && (N_of_ascii c <=? 57)); [by intros [= <-]|].
  destruct ((97 <=? Go.lower (N_of_ascii c))
            && (Go.lower (N_of_ascii c) <=? 122)); [|done].
  intros [= <-]. generalize (Go.lower (N_of_ascii c)). intros b. lia.
Qed.

(** What the digit loop accepts is a run of decimal digits whose value
    fits 64 bits. *)
Lemma parseDigits_sound (s : string) (n m : N) :
  Go.parseDigits s n = inr m →
  all_digits s = true ∧ m = decimal_after s n ∧ (n <= MaxUint64 → m <= MaxUint64).
Proof.
  revert n. induction s as [|c s IH]; intros n; simpl.
  - by intros [= <-].
  - destruct (Go.digit_of c) as [d|] eqn:Hd; [|done].
    destruct (N.leb_spec 10 d) as [|Hd10]; [done|].
    destruct (N.leb_spec Go.cutoff n) as [|Hcut]; [done|].
    rewrite cutoff_value in Hcut.
    change (2 ^ 64) with 18446744073709551616.
    rewrite (N.mod_small (n * 10)) by lia.
    destruct (digit_of_below_10 c d Hd Hd10) as [Hc ->].
    set (d := N_of_ascii c - 48) in *.
    destruct (N.lt_ge_cases (n * 10 + d) 18446744073709551616) as [Hfit|Hover].
    + rewrite (N.mod_small (n * 10 + d)) by lia.
      destruct (_ || _); [done|]. intros Hrun.
      destruct (IH _ Hrun) as (Hs & -> & Hmax).
      rewrite Hc, Hs. replace (10 * n + d) with (n * 10 + d) by lia.
      repeat split. intros _. apply Hmax. rewrite MaxUint64_value. lia.
    + assert ((n * 10 + d) mod 18446744073709551616
              = n * 10 + d - 18446744073709551616) as ->.
      { symmetry. apply (N.mod_unique _ _ 1); lia. }
      destruct (N.ltb_spec (n * 10 + d - 18446744073709551616) (n * 10));
        [done|lia].
Qed.

(** [ParseUint(s, 10, 64)] succeeds exactly on the decimal numerals that
    fit 64 bits, with their value. *)
Lemma ParseUint_inr (s : string) (n : N) :
  Go.ParseUint s = inr n ↔
  is_decimal s ∧ decimal_value s <= MaxUint64 ∧ decimal_value s = n.
Proof.
  split.
  - unfold Go.ParseUint. destruct s as [|c s]; [done|].
    destruct (Go.parseDigits (String c s) 0) as [k|m] eqn:Hrun; [done|].
    intros [= <-]. destruct (parseDigits_sound _ _ _ Hrun) as (Hs & -> & Hmax).
    repeat split; [done|exact Hs|]. apply Hmax. by rewrite MaxUint64_value.
  - intros (Hdec & Hfit & <-). by apply ParseUint_decimal.
Qed.

Lemma ParseUint_inl (s : string) (err : error) :
  Go.ParseUint s = inl err →
  ¬ (is_decimal s ∧ decimal_value s <= MaxUint64).
Proof.
  intros Herr [Hdec Hfit]. rewrite (ParseUint_decimal s Hdec Hfit) in Herr.
  discriminate Herr.
Qed.

(** X9: an error from [GetBundleBlocksRange] always comes with both
    slots zero, whichever step failed: the request, the status, the read,
    the decoding or one of the two numerals. *)
Theorem GetBundleBlocksRange_error_zero (x : BundleNameExchange)
    (startSlot endSlot : N) (err : error) :
  GetBundleBlocksRange x = Return (startSlot, endSlot, Some err) →
  startSlot = 0 ∧ endSlot = 0.
Proof.
  unfold GetBundleBlocksRange.
  destruct (newRequestErr x); [by intros [= <- <- _]|].
  destruct (doErr x); [by intros [= <- <- _]|].
  destruct (negb _); [by intros [= <- <- _]|].
  destruct (readAllErr x); [by intros [= <- <- _]|].
  destruct (unmarshalled x) as [e|bundleName]; [by intros [= <- <- _]|].
  unfold parseBundleName.
  destruct (Go.index _ 1) as [p1|]; [|done].
  destruct (Go.slice_from_1 p1) as [s1|]; [|done].
  destruct (Go.ParseUint s1); [by intros [= <- <- _]|].
  destruct (Go.index _ 2) as [p2|]; [|done].
  destruct (Go.slice_from_1 p2) as [s2|]; [|done].
  destruct (Go.ParseUint s2); [by intros [= <- <- _]|done].
Qed.

Lemma GetBundleBlocksRange_error_zero_witness :
  ∃ startSlot endSlot err,
    GetBundleBlocksRange (delivers "archive_s1000_e19x9")
    = Return (startSlot, endSlot, Some err)
    ∧ startSlot = 0 ∧ endSlot = 0.
Proof.
  eexists _, _, _. split; [reflexivity|].
  eapply (GetBundleBlocksRange_error_zero (delivers "archive_s1000_e19x9")).
  reflexivity.
Defined.

(** X10: the bundle names on which the parse panics.  With [parts] the
    [_]-separated parts of the name, these are the names that have no
    second part, or an empty second part, or whose second part carries a
    numeral that fits 64 bits while the third part is missing or empty.
    A name whose first numeral is bad returns an error before the third
    part is looked at. *)
Theorem parseBundleName_panics (bundleName : string) :
  (∃ msg, parseBundleName bundleName = Panic msg) ↔
  Go.Split bundleName "_" !! 1%nat = None ∨
  Go.Split bundleName "_" !! 1%nat = Some EmptyString ∨
  ∃ c1 d1,
    Go.Split bundleName "_" !! 1%nat = Some (String c1 d1) ∧
    is_decimal d1 ∧ decimal_value d1 <= MaxUint64 ∧
    (Go.Split bundleName "_" !! 2%nat = None ∨
     Go.Split bundleName "_" !! 2%nat = Some EmptyString).
Proof.
  unfold parseBundleName, Go.index.
  generalize (Go.Split bundleName "_"). intros parts.
  destruct (parts !! 1%nat) as [[|c1 d1]|] eqn:H1; simpl.
  - split; [by right; left|by eexists].
  - destruct (Go.ParseUint d1) as [err|startSlot] eqn:Hp1.
    + split; [by intros [? ?]|].
      intros [?|[?|(c & d & [= <- <-] & Hdec & Hfit & _)]]; [done..|].
      by destruct (ParseUint_inl _ _ Hp1).
    + apply ParseUint_inr in Hp1 as (Hdec & Hfit & _).
      destruct (parts !! 2%nat) as [[|c2 d2]|] eqn:H2; simpl.
      * split; [|by eexists]. intros _. right. right.
        exists c1, d1. split; [done|]. split; [exact Hdec|].
        split; [exact Hfit|]. by right.
      * destruct (Go.ParseUint d2); (split; [by intros [? ?]|]);
          by intros [?|[?|(c & d & _ & _ & _ & [?|?])]].
      * split; [|by eexists]. intros _. right. right.
        exists c1, d1. split; [done|]. split; [exact Hdec|].
        split; [exact Hfit|]. by left.
  - split; [by left|by eexists].
Qed.

(** X11: the bundle names the parse accepts, and with what result: those
    whose second and third parts each carry, after their first byte, a
    decimal numeral that fits 64 bits.  The first byte of either part may
    be any byte, and parts after the third are not looked at. *)
Theorem parseBundleName_accepts (bundleName : string) (startSlot endSlot : N) :
  parseBundleName bundleName = Return (startSlot, endSlot, None) ↔
  ∃ c1 d1 c2 d2,
    Go.Split bundleName "_" !! 1%nat = Some (String c1 d1) ∧
    Go.Split bundleName "_" !! 2%nat = Some (String c2 d2) ∧
    is_decimal d1 ∧ is_decimal d2 ∧
    decimal_value d1 = startSlot ∧ decimal_value d2 = endSlot ∧
    startSlot <= MaxUint64 ∧ endSlot <= MaxUint64.
Proof.
  unfold parseBundleName, Go.index.
  generalize (Go.Split bundleName "_"). intros parts.
  destruct (parts !! 1%nat) as [[|c1 d1]|] eqn:H1; simpl;
    [split; [done|by intros (? & ? & ? & ? & ? & _)]| |
     split; [done|by intros (? & ? & ? & ? & ? & _)]].
  destruct (Go.ParseUint d1) as [err|s1] eqn:Hp1.
  { split; [done|]. intros (c & d & ? & ? & [= <- <-] & _ & Hdec & _ & <- & _ & Hfit & _).
    by destruct (ParseUint_inl _ _ Hp1). }
  destruct (parts !! 2%nat) as [[|c2 d2]|] eqn:H2; simpl;
    [split; [done|by intros (? & ? & ? & ? & _ & ? & _)]| |
     split; [done|by intros (? & ? & ? & ? & _ & ? & _)]].
  destruct (Go.ParseUint d2) as [err|s2] eqn:Hp2.
  { split; [done|]. intros (? & ? & c & d & _ & [= <- <-] & _ & Hdec & _ & <- & _ & Hfit).
    by destruct (ParseUint_inl _ _ Hp2). }
  apply ParseUint_inr in Hp1 as (Hdec1 & Hfit1 & Hv1).
  apply ParseUint_inr in Hp2 as (Hdec2 & Hfit2 & Hv2).
  split.
  - intros [= <- <-]. exists c1, d1, c2, d2. rewrite <- Hv1, <- Hv2.
    split; [done|]. split; [done|]. split; [exact Hdec1|].
    split; [exact Hdec2|]. by repeat split.
  - intros (? & ? & ? & ? & [= <- <-] & [= <- <-] & _ & _ & <- & <- & _).
    by rewrite Hv1, Hv2.
Qed.

Lemma parseBundleName_three_numerals (bundleName p0 d1 d2 : string)
    (c1 c2 : ascii) (rest : list string) :
  Go.Split bundleName "_" = p0 :: String c1 d1 :: String c2 d2 :: rest →
  is_decimal d1 → is_decimal d2 →
  decimal_value d1 <= MaxUint64 → decimal_value d2 <= MaxUint64 →
  parseBundleName bundleName
  = Return (decimal_value d1, decimal_value d2, None).
Proof.
  intros Hparts H1 H2 Hf1 Hf2. unfold parseBundleName. rewrite Hparts. simpl.
  by rewrite (ParseUint_decimal d1 H1 Hf1), (ParseUint_decimal d2 H2 Hf2).
Qed.

(** X12: the letters before the numerals are not checked and a tail is
    ignored.  For a prefix without [_], any two bytes [c1], [c2] other
    than [_], numerals [start] and [end] that fit 64 bits and any
    [tail], the name [<prefix>_<c1><start>_<c2><end>_<tail>] yields the
    two values and no error. *)
Theorem GetBundleBlocksRange_lenient (prefix start end_ tail : string)
    (c1 c2 : ascii) :
  has_underscore prefix = false → c1 ≠ "_"%char → c2 ≠ "_"%char →
  is_decimal start → is_decimal end_ →
  decimal_value start <= MaxUint64 → decimal_value end_ <= MaxUint64 →
  GetBundleBlocksRange
    (delivers (prefix +:+ "_" +:+ String c1 start +:+ "_"
               +:+ String c2 end_ +:+ "_" +:+ tail))
  = Return (decimal_value start, decimal_value end_, None).
Proof.
  intros Hp Hc1 Hc2 Hs He Hfs Hfe.
  unfold GetBundleBlocksRange, delivers. simpl.
  assert (∀ c d, c ≠ "_"%char → all_digits d = true →
                 has_underscore (String c d) = false) as Hpart.
  { intros c d Hc Hd. simpl. rewrite (digits_no_underscore d Hd).
    by destruct (Ascii.eqb_spec c "_"). }
  apply parseBundleName_three_numerals
    with (p0 := prefix) (c1 := c1) (c2 := c2) (rest := Go.Split tail "_");
    try done.
  change (prefix +:+ "_" +:+ String c1 start +:+ "_"
          +:+ String c2 end_ +:+ "_" +:+ tail)
    with (prefix +:+ String "_"
            (String c1 start +:+ String "_"
               (String c2 end_ +:+ String "_" tail))).
  rewrite Split_app_underscore by done.
  rewrite Split_app_underscore by (apply Hpart; [done|apply Hs]).
  by rewrite Split_app_underscore by (apply Hpart; [done|apply He]).
Qed.

Lemma GetBundleBlocksRange_lenient_witness :
  GetBundleBlocksRange (delivers "blocks_x0100_#199_v2_final")
  = Return (100, 199, None).
Proof.
  assert (is_decimal "0100" ∧ is_decimal "199") as [Hs He]
    by (split; split; [discriminate|reflexivity|discriminate|reflexivity]).
  assert (decimal_value "0100" <= MaxUint64
          ∧ decimal_value "199" <= MaxUint64) as [Hfs Hfe]
    by (split; vm_compute; discriminate).
  assert ("x"%char ≠ "_"%char ∧ "#"%char ≠ "_"%char) as [Hc1 Hc2]
    by (split; discriminate).
  exact (GetBundleBlocksRange_lenient "blocks" "0100" "199" "v2_final"
           "x" "#" eq_refl Hc1 Hc2 Hs He Hfs Hfe).
Defined.
End bundle_names_more.

(** ** The caches: what an insertion keeps *)

Section cache_more.
Context {K V : Type} `{EqDecision K}.

Lemma length_remove (k : K) (l : list (K * V)) :
  (List.length (Cache.remove k l) ≤ List.length l)%nat.
Proof.
  induction l as [|[k0 v0] l IH]; simpl; [lia|].
  destruct (decide (k0 = k)); simpl; lia.
Qed.

Lemma peek_Add_eq (c : Cache.t K V) (k : K) (v : V) :
  (1 ≤ Cache.capacity c)%nat → Cache.peek (Cache.Add c k v) k = Some v.
Proof.
  unfold Cache.peek, Cache.Add. simpl.
  destruct (Cache.capacity c) as [|n]; [lia|]. intros _. simpl.
  by rewrite decide_True.
Qed.

Lemma peek_Add_ne (c : Cache.t K V) (k k' : K) (v : V) :
  k' ≠ k → (List.length (Cache.entries c) < Cache.capacity c)%nat →
  Cache.peek (Cache.Add c k v) k' = Cache.peek c k'.
Proof.
  intros Hne Hroom. unfold Cache.peek, Cache.Add. simpl.
  pose proof (length_remove k (Cache.entries c)) as Hlen.
  rewrite take_ge by (simpl; lia). simpl.
  rewrite decide_False by done. by apply assoc_remove_ne.
Qed.

Lemma length_Add (c : Cache.t K V) (k : K) (v : V) :
  (List.length (Cache.entries (Cache.Add c k v))
   ≤ S (List.length (Cache.entries c)))%nat.
Proof.
  unfold Cache.Add. simpl.
  pose proof (length_remove k (Cache.entries c)) as Hlen.
  pose proof (length_take_le ((k, v) :: Cache.remove k (Cache.entries c))
                (Cache.capacity c)) as Htake.
  destruct (decide (Cache.capacity c
                    ≤ List.length ((k, v) :: Cache.remove k (Cache.entries c)))%nat)
    as [Hle|Hgt].
  - rewrite length_take_le by done. simpl in Hle. lia.
  - rewrite take_ge by lia. simpl. lia.
Qed.
End cache_more.

(** ** The fetch path: what the bundle loop returns and leaves behind *)

Section populate_facts.
Import Service.
Context `{Chain} (w : World).

Lemma populate_cons_ok (b : ptr Block) (blocks : list (ptr Block))
    (g : GeneralBlock) (number : N) (body : ptr Body) (header : ptr Header)
    (c : BlockArchiverService) :
  convertBlock w b = Return (inr (Some g)) →
  populate w (b :: blocks) number body header c
  = if gb_NumberU64 g =? number
    then populate w blocks number (Some (gb_Body g)) (Some (gb_Header g))
           (cacheBlock g c)
    else populate w blocks number body header (cacheBlock g c).
Proof. intros Hb. simpl. by rewrite Hb. Qed.

(** The loop over blocks that all convert ends without error, and the
    loop over a longer list goes on from where it stands then. *)
Lemma populate_app (bs1 bs2 : list (ptr Block)) (gs1 : list GeneralBlock)
    (number : N) (body : ptr Body) (header : ptr Header)
    (c : BlockArchiverService) :
  converts w bs1 gs1 →
  ∃ body' header' c',
    populate w bs1 number body header c = (Return (body', header', None), c')
    ∧ populate w (bs1 ++ bs2) number body header c
      = populate w bs2 number body' header' c'.
Proof.
  intros Hconv. revert body header c.
  induction Hconv as [|b g bs1 gs1 Hb _ IH]; intros body header c.
  - by exists body, header, c.
  - rewrite <- app_comm_cons, !(populate_cons_ok _ _ g) by done.
    destruct (gb_NumberU64 g =? number); apply IH.
Qed.


(** The loop never touches the lock. *)
Lemma populate_requestLock (blocks : list (ptr Block)) (number : N)
    (body : ptr Body) (header : ptr Header) (c : BlockArchiverService) :
  requestLock (snd (populate w blocks number body header c)) = requestLock c.
Proof.
  revert body header c. induction blocks as [|b blocks IH];
    intros body header c; [done|]. simpl.
  destruct (convertBlock w b) as [[err|[g|]]|msg]; [done| |done..].
  destruct (gb_NumberU64 g =? number); by rewrite IH.
Qed.

Lemma fetchBundle_requestLock (number : N) (c : BlockArchiverService)
    (log : list event) :
  requestLock (snd (fst (fetchBundle w number c log))) = requestLock c.
Proof.
  unfold fetchBundle.
  destruct (client_GetBundleBlocksByBlockNum w number) as [err|blocks];
    [done|].
  pose proof (populate_requestLock blocks number None None c) as Hlock.
  by destruct (populate _ _ _ _ _ _).
Qed.

(** The fetch path of [getBlockByNumber], step by step. *)
Lemma getBlockByNumber_fetch_path (fuel : nat) (number start end_ : N)
    (c c' : BlockArchiverService) (log log' : list event)
    (out : outcome Result) :
  Lock.IsWithinAnyRange (requestLock c) number = false →
  Client.GetBundleBlocksRange (bundleNameExchange w number)
  = Return (start, end_, None) →
  getBlockByNumber w fuel number c log = Some (out, c', log') →
  ∃ rl c1 log1 rl',
    Lock.AddRange fuel start end_ (requestLock c) = Some rl
    ∧ fetchBundle w number (set_requestLock c rl)
        (((log ++ [EvIsWithinAnyRange number])
          ++ [EvGetBundleBlocksRange number]) ++ [EvAddRange start end_])
      = (out, c1, log1)
    ∧ Lock.RemoveRange fuel start end_ (requestLock c1) = Some rl'
    ∧ c' = set_requestLock c1 rl'.
Proof.
  intros Hout Hrange. unfold getBlockByNumber. rewrite Hout, Hrange.
  destruct (Lock.AddRange fuel start end_ (requestLock c)) as [rl|]; [|done].
  destruct (fetchBundle _ _ _ _) as [[out1 c1] log1] eqn:Hfetch.
  destruct (Lock.RemoveRange fuel start end_ (requestLock c1)) as [rl'|] eqn:Hrem;
    [|done].
  intros [= <- <- <-]. exists rl, c1, log1, rl'.
  split; [done|]. split; [exact Hfetch|]. by split.
Qed.

(** X13: a fetch leaves the lock as it found it.  When the range the
    archive names was not held, the lock after [getBlockByNumber] is
    the lock before it, whatever the outcome of the fetch. *)
Theorem getBlockByNumber_restores_lock (fuel : nat) (number start end_ : N)
    (c c' : BlockArchiverService) (log log' : list event)
    (out : outcome Result) :
  Lock.IsWithinAnyRange (requestLock c) number = false →
  Client.GetBundleBlocksRange (bundleNameExchange w number)
  = Return (start, end_, None) →
  Lock.unheld (requestLock c) start end_ →
  getBlockByNumber w fuel number c log = Some (out, c', log') →
  requestLock c' = requestLock c.
Proof.
  intros Hout Hrange Hfree Hrun.
  destruct (getBlockByNumber_fetch_path _ _ _ _ _ _ _ _ _ Hout Hrange Hrun)
    as (rl & c1 & log1 & rl' & Hadd & Hfetch & Hrem & ->).
  pose proof (fetchBundle_requestLock number (set_requestLock c rl)
                (((log ++ [EvIsWithinAnyRange number])
                  ++ [EvGetBundleBlocksRange number])
                 ++ [EvAddRange start end_])) as Hlock.
  rewrite Hfetch in Hlock. simpl in Hlock. rewrite Hlock in Hrem. simpl.
  by eapply AddRange_RemoveRange_restores.
Qed.




(** X17: a conversion error stops the loop where it stands.  When the
    blocks [bs1] convert and the next block does not, the loop returns
    that error, nil body and nil header, and the caches are as the loop
    over [bs1] alone leaves them: the blocks before the bad one stay
    cached, the blocks after it are never looked at. *)
Theorem populate_stops_at_error (bs1 bs2 : list (ptr Block)) (b : ptr Block)
    (gs1 : list GeneralBlock) (err : error) (number : N)
    (body : ptr Body) (header : ptr Header) (c : BlockArchiverService) :
  converts w bs1 gs1 → convertBlock w b = Return (inl err) →
  populate w (bs1 ++ b :: bs2) number body header c
  = (Return (None, None, Some err),
     snd (populate w bs1 number body header c)).
Proof.
  intros Hconv Hb.
  destruct (populate_app bs1 (b :: bs2) gs1 number body header c Hconv)
    as (body' & header' & c1 & Hrun & ->).
  rewrite Hrun. simpl. by rewrite Hb.
Qed.
End populate_facts.

(** ** The fetch path: what is cached afterwards *)

Section bundle_cached.
Import Service.
Context `{Chain} (w : World).

Lemma cacheBlock_holds (g : GeneralBlock) (c : BlockArchiverService) :
  has_room 1 c → holds_block (cacheBlock g c) g.
Proof.
  intros (Hb & Hh & Hn). unfold holds_block, cacheBlock. simpl.
  repeat split; apply peek_Add_eq; lia.
Qed.

Lemma cacheBlock_keeps (g g0 : GeneralBlock) (c : BlockArchiverService) :
  has_room 1 c → holds_block c g0 →
  gb_NumberU64 g0 ≠ gb_NumberU64 g → gb_Hash g0 ≠ gb_Hash g →
  holds_block (cacheBlock g c) g0.
Proof.
  intros (Hb & Hh & Hn) (Hnum & Hbody & Hheader) Hne_num Hne_hash.
  unfold holds_block, cacheBlock. simpl.
  repeat split; (rewrite peek_Add_ne; [done|done|lia]).
Qed.

Lemma cacheBlock_room (n : nat) (g : GeneralBlock) (c : BlockArchiverService) :
  has_room (S n) c → has_room n (cacheBlock g c).
Proof.
  intros (Hb & Hh & Hn). unfold has_room, cacheBlock. simpl.
  pose proof (length_Add (bodyCache c) (gb_Hash g) (Some (gb_Body g))).
  pose proof (length_Add (headerCache c) (gb_Hash g) (Some (gb_Header g))).
  pose proof (length_Add (hashCache c) (gb_NumberU64 g) (gb_Hash g)).
  simpl in *. repeat split; lia.
Qed.

Lemma has_room_le (n m : nat) (c : BlockArchiverService) :
  (m ≤ n)%nat → has_room n c → has_room m c.
Proof. intros Hle (Hb & Hh & Hn). repeat split; lia. Qed.

(** The loop caches every block of a bundle it has room for, and keeps
    what was cached under other numbers and hashes. *)
Lemma populate_holds (blocks : list (ptr Block)) (gs : list GeneralBlock)
    (number : N) :
  converts w blocks gs →
  ∀ (body : ptr Body) (header : ptr Header) (c : BlockArchiverService),
    has_room (List.length gs) c →
    NoDup (gb_NumberU64 <$> gs) → NoDup (gb_Hash <$> gs) →
    (∀ g, g ∈ gs →
          holds_block (snd (populate w blocks number body header c)) g) ∧
    (∀ g0, holds_block c g0 →
           gb_NumberU64 g0 ∉ gb_NumberU64 <$> gs →
           gb_Hash g0 ∉ gb_Hash <$> gs →
           holds_block (snd (populate w blocks number body header c)) g0).
Proof.
  induction 1 as [|b g bs gs Hb _ IH]; intros body header c Hroom Hnum Hhash.
  - split; [by intros g ?%elem_of_nil|done].
  - rewrite !fmap_cons in *.
    apply NoDup_cons in Hnum as [Hnum_g Hnum].
    apply NoDup_cons in Hhash as [Hhash_g Hhash].
    assert (has_room 1 c) as Hone.
    { apply (has_room_le (List.length (g :: gs))); [simpl; lia|done]. }
    assert (∀ body' header',
              (∀ g', g' ∈ g :: gs →
                 holds_block (snd (populate w bs number body' header'
                                     (cacheBlock g c))) g') ∧
              (∀ g0, holds_block c g0 →
                 gb_NumberU64 g0 ∉ gb_NumberU64 g :: (gb_NumberU64 <$> gs) →
                 gb_Hash g0 ∉ gb_Hash g :: (gb_Hash <$> gs) →
                 holds_block (snd (populate w bs number body' header'
                                     (cacheBlock g c))) g0)) as Hboth.
    { intros body' header'.
      destruct (IH body' header' (cacheBlock g c)) as [Hnew Hold];
        [by apply cacheBlock_room|done..|].
      split.
      - intros g' [->|Hin]%elem_of_cons; [|by apply Hnew].
        apply Hold; [by apply cacheBlock_holds|done..].
      - intros g0 Hg0 [Hn0 Hn0']%not_elem_of_cons [Hh0 Hh0']%not_elem_of_cons.
        apply Hold; [|done..]. by apply cacheBlock_keeps. }
    rewrite (populate_cons_ok _ _ _ g) by done.
    destruct (gb_NumberU64 g =? number); apply Hboth.
Qed.

(** X18: a fetched bundle is served from the caches.  When the blocks of
    the bundle convert, have pairwise different numbers and hashes, and
    each cache has room for them, then after the loop every block of the
    bundle is fully cached, and [GetBlockByNumber] of its number returns
    its body and header with no further lock operation or remote call. *)
Theorem populate_serves_bundle (blocks : list (ptr Block))
    (gs : list GeneralBlock) (number : N) (body : ptr Body)
    (header : ptr Header) (c : BlockArchiverService) :
  converts w blocks gs →
  has_room (List.length gs) c →
  NoDup (gb_NumberU64 <$> gs) → NoDup (gb_Hash <$> gs) →
  ∀ g, g ∈ gs →
    fully_cached (snd (populate w blocks number body header c))
      (gb_NumberU64 g) (Some (gb_Body g)) (Some (gb_Header g)) ∧
    ∀ fuel log,
      ∃ c', GetBlockByNumber w fuel (gb_NumberU64 g)
              (snd (populate w blocks number body header c)) log
            = Some (Return (Some (gb_Body g), Some (gb_Header g), None),
                    c', log).
Proof.
  intros Hconv Hroom Hnum Hhash g Hg.
  destruct (populate_holds blocks gs number Hconv body header c Hroom
              Hnum Hhash) as [Hnew _].
  destruct (Hnew g Hg) as (Hn & Hb & Hh).
  assert (fully_cached (snd (populate w blocks number body header c))
            (gb_NumberU64 g) (Some (gb_Body g)) (Some (gb_Header g)))
    as Hfull by (by exists (gb_Hash g)).
  split; [done|]. intros fuel log. unfold GetBlockByNumber.
  apply cachedBlock_Some in Hfull.
  destruct (cachedBlock _ _) as [found c']. simpl in Hfull. subst found.
  by exists c'.
Qed.
End bundle_cached.

(** ** Lookup by hash *)

Section by_hash.
Import Service.
Context `{Chain} (w : World).

(** X19: when body and header are both cached under [hash],
    [GetBlockByHash] returns them and no error; it does not look at the
    hash cache, operates no lock and makes no remote call. *)
Theorem GetBlockByHash_cached (fuel : nat) (hash : Hash)
    (c : BlockArchiverService) (log : list event)
    (body : ptr Body) (header : ptr Header) :
  cached_by_hash c hash body header →
  ∃ c', GetBlockByHash w fuel hash c log
        = Some (Return (body, header, None), c', log)
        ∧ same_contents c c'.
Proof.
  intros [Hbody Hheader]. unfold GetBlockByHash.
  pose proof (Get_peek (bodyCache c) hash) as Hb.
  pose proof (Get_peek (headerCache c) hash) as Hd.
  pose proof (peek_Get (bodyCache c) hash) as Hb'.
  pose proof (peek_Get (headerCache c) hash) as Hd'.
  destruct (Cache.Get (bodyCache c) hash) as [b bc].
  destruct (Cache.Get (headerCache c) hash) as [h hdc].
  simpl in *. rewrite Hbody in Hb. rewrite Hheader in Hd. subst b h.
  eexists. split; [reflexivity|by repeat split].
Qed.

(** X20: on a miss [GetBlockByHash] asks the remote client once.  An
    error of the client, or of [HexToUint64] on the block's number, comes
    back as that error; otherwise the call is [getBlockByNumber] on that
    number, on the same lock and cache contents. *)
Theorem GetBlockByHash_miss (fuel : nat) (hash : Hash)
    (c : BlockArchiverService) (log : list event) :
  (∀ body header, ¬ cached_by_hash c hash body header) →
  ∃ c', same_contents c c' ∧
    match client_GetBlockByHash w hash with
    | inl err =>
        GetBlockByHash w fuel hash c log
        = Some (Return (None, None, Some err), c',
                log ++ [EvClientGetBlockByHash hash])
    | inr None =>
        GetBlockByHash w fuel hash c log
        = Some (Return (None, None, None), c',
                log ++ [EvClientGetBlockByHash hash])
    | inr (Some block) =>
        match HexToUint64 w (block_Number block) with
        | inl err =>
            GetBlockByHash w fuel hash c log
            = Some (Return (None, None, Some err), c',
                    log ++ [EvClientGetBlockByHash hash])
        | inr number =>
            GetBlockByHash w fuel hash c log
            = getBlockByNumber w fuel number c'
                (log ++ [EvClientGetBlockByHash hash])
        end
    end.
Proof.
  intros Hmiss. unfold GetBlockByHash.
  pose proof (Get_peek (bodyCache c) hash) as Hb.
  pose proof (Get_peek (headerCache c) hash) as Hd.
  pose proof (peek_Get (bodyCache c) hash) as Hb'.
  pose proof (peek_Get (headerCache c) hash) as Hd'.
  destruct (Cache.Get (bodyCache c) hash) as [body bc].
  destruct (Cache.Get (headerCache c) hash) as [header hdc].
  simpl in *.
  assert (same_contents c (mkService bc hdc (hashCache c) (requestLock c)))
    as Hsame by (by repeat split).
  exists (mkService bc hdc (hashCache c) (requestLock c)).
  split; [exact Hsame|].
  destruct body as [b|], header as [h|];
    try (destruct (client_GetBlockByHash w hash) as [err|[block|]];
         [done| |done];
         by destruct (HexToUint64 w (block_Number block))).
  by destruct (Hmiss b h).
Qed.
End by_hash.

(** ** JSON-RPC errors *)

Section rpc_errors.
Import Service.
Context `{Chain} (t : Rpc.Transport) (w : World).

Lemma Rpc_GetBlockByHash_error_reply (hash : Hash) (e : Rpc.JsonError) :
  Rpc.error_reply t
    (Rpc.preparePayload "eth_getBlockByHash" [Rpc.hashString t hash; "true"])
    e →
  Rpc.GetBlockByHash t hash = inr None.
Proof.
  intros (body & id & ver & Hpost & Hdecode).
  unfold Rpc.GetBlockByHash. by rewrite Hpost, Hdecode.
Qed.


(** X21: a JSON-RPC error is not an error of the lookup by hash.  When
    the archive answers [eth_getBlockByHash] with status 200 and a
    response that carries an error and no result, the client returns a
    nil block and no error, the [Error] field is never read, and the
    service's [GetBlockByHash] on a cache miss returns nil, nil and no
    error. *)
Theorem GetBlockByHash_swallows_rpc_error (fuel : nat) (hash : Hash)
    (c : BlockArchiverService) (log : list event) (e : Rpc.JsonError) :
  client_GetBlockByHash w hash = Rpc.GetBlockByHash t hash →
  Rpc.error_reply t
    (Rpc.preparePayload "eth_getBlockByHash" [Rpc.hashString t hash; "true"])
    e →
  (∀ body header, ¬ cached_by_hash c hash body header) →
  Rpc.GetBlockByHash t hash = inr None ∧
  ∃ c', GetBlockByHash w fuel hash c log
        = Some (Return (None, None, None), c',
                log ++ [EvClientGetBlockByHash hash]).
Proof.
  intros Hclient Hreply Hmiss.
  pose proof (Rpc_GetBlockByHash_error_reply hash e Hreply) as Hnil.
  split; [done|]. unfold GetBlockByHash.
  pose proof (Get_peek (bodyCache c) hash) as Hb.
  pose proof (Get_peek (headerCache c) hash) as Hd.
  destruct (Cache.Get (bodyCache c) hash) as [body bc].
  destruct (Cache.Get (headerCache c) hash) as [header hdc].
  simpl in *. rewrite Hclient, Hnil.
  destruct body as [b|], header as [h|]; try by eexists.
  by destruct (Hmiss b h).
Qed.

End rpc_errors.

(** ** The further properties on the small chain *)

Section demo_more.
Import Service Demo.

Lemma serving_range_low (n : N) :
  n < 200 →
  Client.GetBundleBlocksRange (bundleNameExchange serving_world n)
  = Return (100, 102, None).
Proof.
  intros Hn. simpl. destruct (N.ltb_spec n 200); [|lia]. reflexivity.
Qed.

Lemma getBlockByNumber_restores_lock_witness :
  ∃ out c' log',
    getBlockByNumber serving_world 4 101 empty_service []
    = Some (out, c', log')
    ∧ requestLock c' = requestLock empty_service.
Proof.
  destruct (getBlockByNumber serving_world 4 101 empty_service [])
    as [[[out c'] log']|] eqn:Hrun;
    [|vm_compute in Hrun; discriminate Hrun].
  exists out, c', log'. split; [reflexivity|].
  apply (getBlockByNumber_restores_lock serving_world 4 101 100 102
           empty_service c' [] log' out);
    [reflexivity|reflexivity|apply unheld_new|exact Hrun].
Defined.


Lemma serving_converts :
  converts serving_world [Some 100; Some 101; Some 102] [100; 101; 102].
Proof. repeat constructor. Qed.



Lemma populate_stops_at_error_witness :
  populate serving_world [Some 200; None; Some 202] 202 None None
    empty_service
  = (Return (None, None, Some (upstream_error "nil block")),
     snd (populate serving_world [Some 200] 202 None None empty_service)).
Proof.
  apply (populate_stops_at_error serving_world [Some 200] [Some 202] None
           [200] (upstream_error "nil block") 202 None None empty_service);
    [repeat constructor|reflexivity].
Defined.

Lemma populate_serves_bundle_witness :
  fully_cached
    (snd (populate serving_world [Some 100; Some 101; Some 102] 101
            None None empty_service))
    102 (Some "body") (Some "header") ∧
  ∃ c', GetBlockByNumber serving_world 4 102
          (snd (populate serving_world [Some 100; Some 101; Some 102]
                  101 None None empty_service)) []
        = Some (Return (Some "body", Some "header", None), c', []).
Proof.
  assert (has_room 3 empty_service) as Hroom by (repeat split; simpl; lia).
  assert (NoDup [100; 101; 102]) as Hnum by (by apply (bool_decide_unpack _)).
  assert (NoDup [1100; 1101; 1102]) as Hhash
    by (by apply (bool_decide_unpack _)).
  assert (102 ∈ [100; 101; 102]) as Hin by (by apply (bool_decide_unpack _)).
  destruct (populate_serves_bundle serving_world
              [Some 100; Some 101; Some 102] [100; 101; 102] 101 None None
              empty_service serving_converts Hroom Hnum Hhash 102 Hin)
    as [Hfull Hget].
  split; [exact Hfull|]. exact (Hget 4%nat []).
Defined.

Lemma GetBlockByHash_cached_witness :
  ∃ c', GetBlockByHash failing_world 4 1101 warm_service []
        = Some (Return (Some "body", Some "header", None), c', [])
        ∧ same_contents warm_service c'.
Proof.
  apply (GetBlockByHash_cached failing_world 4 1101 warm_service []).
  split; reflexivity.
Defined.

(** The archive knows the block of hash 1101 as number 101. *)
Lemma GetBlockByHash_miss_witness :
  ∃ c', same_contents empty_service c' ∧
        GetBlockByHash serving_world 4 1101 empty_service []
        = getBlockByNumber serving_world 4 101 c'
            ([] ++ [EvClientGetBlockByHash 1101]).
Proof.
  apply (GetBlockByHash_miss serving_world 4 1101 empty_service []).
  intros body header [Hbody _]. discriminate Hbody.
Defined.

Lemma refusing_error_reply (payload : gmap string Rpc.value) :
  Rpc.error_reply refusing_transport payload
    (Rpc.mkJsonError (-32000) "not found" None).
Proof. by exists "{error}", 1%Z, "2.0". Qed.


Lemma GetBlockByHash_swallows_rpc_error_witness :
  Rpc.GetBlockByHash refusing_transport 1101 = inr None ∧
  ∃ c', GetBlockByHash refused_world 4 1101 empty_service []
        = Some (Return (None, None, None), c',
                [] ++ [EvClientGetBlockByHash 1101]).
Proof.
  apply (GetBlockByHash_swallows_rpc_error refusing_transport refused_world
           4 1101 empty_service []
           (Rpc.mkJsonError (-32000) "not found" None));
    [reflexivity|apply refusing_error_reply|].
  intros body header [Hbody _]. discriminate Hbody.
Defined.

End demo_more.

(** ** A range that ends at the largest [uint64], and the two lookups *)

Section endless.
Import Service.
Context `{Chain} (w : World).

Lemma GetBundleBlocksRange_uint64 (x : Client.BundleNameExchange)
    (startSlot endSlot : N) :
  Client.GetBundleBlocksRange x = Return (startSlot, endSlot, None) →
  startSlot <= MaxUint64 ∧ endSlot <= MaxUint64.
Proof.
  unfold Client.GetBundleBlocksRange.
  destruct (Client.newRequestErr x); [done|].
  destruct (Client.doErr x); [done|].
  destruct (negb _); [done|].
  destruct (Client.readAllErr x); [done|].
  destruct (Client.unmarshalled x) as [e|bundleName]; [done|].
  unfold Client.parseBundleName.
  destruct (Go.index _ 1) as [p1|]; [|done].
  destruct (Go.slice_from_1 p1) as [s1|]; [|done].
  destruct (Go.ParseUint s1) as [|n1] eqn:H1; [done|].
  destruct (Go.index _ 2) as [p2|]; [|done].
  destruct (Go.slice_from_1 p2) as [s2|]; [|done].
  destruct (Go.ParseUint s2) as [|n2] eqn:H2; [done|].
  intros [= <- <-].
  apply ParseUint_inr in H1 as (_ & Hf1 & <-).
  apply ParseUint_inr in H2 as (_ & Hf2 & <-). done.
Qed.

(** X23: an archive can stall the service.  When the identifier is not
    held and the archive names a bundle that ends at the largest
    [uint64], [getBlockByNumber] never returns: the loop of [AddRange]
    has no end, no block is fetched and the range is never released. *)
Theorem getBlockByNumber_never_returns (number start : N)
    (c : BlockArchiverService) (log : list event) :
  Lock.IsWithinAnyRange (requestLock c) number = false →
  Client.GetBundleBlocksRange (bundleNameExchange w number)
  = Return (start, MaxUint64, None) →
  ∀ fuel, getBlockByNumber w fuel number c log = None.
Proof.
  intros Hout Hrange fuel.
  destruct (GetBundleBlocksRange_uint64 _ _ _ Hrange) as [Hstart _].
  unfold getBlockByNumber. rewrite Hout, Hrange.
  unfold Lock.AddRange. by rewrite forRange_never_ends.
Qed.

(** X24: after a fetch the two lookups agree.  Under the conditions of
    X18, [GetBlockByNumber] of a bundle block's number and
    [GetBlockByHash] of its hash return the same body and header, both
    from the caches. *)
Theorem lookups_agree_after_populate (blocks : list (ptr Block))
    (gs : list GeneralBlock) (number : N) (body : ptr Body)
    (header : ptr Header) (c : BlockArchiverService) :
  converts w blocks gs →
  has_room (List.length gs) c →
  NoDup (gb_NumberU64 <$> gs) → NoDup (gb_Hash <$> gs) →
  ∀ g fuel log, g ∈ gs →
    ∃ r c1 c2,
      GetBlockByNumber w fuel (gb_NumberU64 g)
        (snd (populate w blocks number body header c)) log
      = Some (Return r, c1, log)
      ∧ GetBlockByHash w fuel (gb_Hash g)
          (snd (populate w blocks number body header c)) log
        = Some (Return r, c2, log)
      ∧ r = (Some (gb_Body g), Some (gb_Header g), None).
Proof.
  intros Hconv Hroom Hnum Hhash g fuel log Hg.
  destruct (populate_holds w blocks gs number Hconv body header c Hroom
              Hnum Hhash) as [Hnew _].
  destruct (Hnew g Hg) as (Hn & Hb & Hh).
  set (c0 := snd (populate w blocks number body header c)) in *.
  assert (fst (cachedBlock (gb_NumberU64 g) c0)
          = Some (Some (gb_Body g), Some (gb_Header g))) as Hfound.
  { apply cachedBlock_Some. by exists (gb_Hash g). }
  exists (Some (gb_Body g), Some (gb_Header g), None).
  unfold GetBlockByNumber, GetBlockByHash.
  destruct (cachedBlock _ c0) as [found c1]. simpl in Hfound. subst found.
  pose proof (Get_peek (bodyCache c0) (gb_Hash g)) as Hgb.
  pose proof (Get_peek (headerCache c0) (gb_Hash g)) as Hgh.
  destruct (Cache.Get (bodyCache c0) (gb_Hash g)) as [b bc].
  destruct (Cache.Get (headerCache c0) (gb_Hash g)) as [h hdc].
  simpl in *. rewrite Hb in Hgb. rewrite Hh in Hgh. subst b h.
  by eexists _, _.
Qed.
End endless.

Section endless_demo.
Import Service Demo.

Lemma getBlockByNumber_never_returns_witness :
  getBlockByNumber endless_world 1000 18446744073709551500
    empty_service [] = None.
Proof.
  apply (getBlockByNumber_never_returns endless_world
           18446744073709551500 18446744073709551000 empty_service []);
    reflexivity.
Defined.

Lemma lookups_agree_after_populate_witness :
  ∃ r c1 c2,
    GetBlockByNumber serving_world 4 100
      (snd (populate serving_world [Some 100; Some 101; Some 102] 101
              None None empty_service)) []
    = Some (Return r, c1, [])
    ∧ GetBlockByHash serving_world 4 1100
        (snd (populate serving_world [Some 100; Some 101; Some 102] 101
                None None empty_service)) []
      = Some (Return r, c2, [])
    ∧ r = (Some "body", Some "header", None).
Proof.
  assert (has_room 3 empty_service) as Hroom by (repeat split; simpl; lia).
  assert (NoDup [100; 101; 102]) as Hnum by (by apply (bool_decide_unpack _)).
  assert (NoDup [1100; 1101; 1102]) as Hhash
    by (by apply (bool_decide_unpack _)).
  assert (100 ∈ [100; 101; 102]) as Hin by (by apply (bool_decide_unpack _)).
  exact (lookups_agree_after_populate serving_world
           [Some 100; Some 101; Some 102] [100; 101; 102] 101 None None
           empty_service serving_converts Hroom Hnum Hhash 100 4%nat [] Hin).
Defined.
End endless_demo.
